(** * AIQuerySystem: the retrieval core, embedded in Rocq

    A shallow embedding of the Python sources
      - [src/document_processor.py]  (DocumentProcessor: chunk_text,
                                      load_documents, process_documents)
      - [src/embeddings.py]          (SimpleEmbeddings, VectorStore)
      - [src/role_filter.py]         (RoleFilter)
      - [src/ai_query_system.py]     (AIQuerySystem: initialize, query)
    followed by the properties of the specification that were checked on it.

    Conventions of the embedding.
      - A Python [str] is a list of code points.  Code points are [ascii]
        values, i.e. the texts are those of CPython's one-byte string kind
        (code points below 256); the character tables below are the Unicode
        ones restricted to that range.
      - A Python [int] is a [Z]; a Python [float] is a binary64 [float].
      - A Python [dict] is an association list in insertion order with unique
        keys; a Python [list] is a [list].
      - A raised exception is the [Raise] branch of [result]. *)

From Stdlib Require Import Bool Ascii String List ZArith Lia Floats Uint63.
From Stdlib Require Import Sorted Permutation.
Import ListNotations.
Local Open Scope Z_scope.

(* ================================================================== *)
(** * Part I: definitions *)
(* ================================================================== *)

(** ** Python values and built-ins *)

Module Py.

Definition str := list ascii.

(** A string literal. *)
Definition lit (s : string) : str := list_ascii_of_string s.

Definition code (c : ascii) : Z := Z.of_N (N_of_ascii c).

Definition between (lo hi n : Z) : bool := (lo <=? n) && (n <=? hi).

(** [str.isspace] on one code point: TAB..CR, FS..US, SPACE, NEL, NBSP. *)
Definition isspace (c : ascii) : bool :=
  let n := code c in
  between 9 13 n || between 28 32 n || (n =? 133) || (n =? 160).

(** The class [\w] of the [re] module on [str] patterns: alphanumeric
    code points and the underscore. *)
Definition is_word (c : ascii) : bool :=
  let n := code c in
  between 48 57 n || between 65 90 n || (n =? 95) || between 97 122 n
  || (n =? 170) || (n =? 178) || (n =? 179) || (n =? 181) || (n =? 185)
  || (n =? 186) || between 188 190 n || between 192 214 n
  || between 216 246 n || between 248 255 n.

(** [str.lower], code point by code point. *)
Definition lower_char (c : ascii) : ascii :=
  let n := code c in
  if between 65 90 n || (between 192 222 n && negb (n =? 215))
  then ascii_of_N (Z.to_N (n + 32)) else c.

Definition lower (s : str) : str := map lower_char s.

(** [str.upper], code point by code point.  The three code points whose
    upper case leaves the one-byte range (181, 223, 255) are left alone; the
    program applies [upper] to its fixed keywords only, which contain none. *)
Definition upper_char (c : ascii) : ascii :=
  let n := code c in
  if between 97 122 n || (between 224 254 n && negb (n =? 247))
  then ascii_of_N (Z.to_N (n - 32)) else c.

Definition upper (s : str) : str := map upper_char s.

Fixpoint str_eqb (a b : str) : bool :=
  match a, b with
  | [], [] => true
  | x :: a', y :: b' => Ascii.eqb x y && str_eqb a' b'
  | _, _ => false
  end.

(** [len(s)] *)
Definition len {A} (s : list A) : Z := Z.of_nat (length s).

(** Index normalisation of slices and of [find]/[rfind]: a negative index
    counts from the end, and everything is clamped to [0, len]. *)
Definition adjust (n i : Z) : Z :=
  if i <? 0 then Z.max (i + n) 0 else Z.min i n.

(** [s[a:b]] *)
Definition slice {A} (s : list A) (a b : Z) : list A :=
  let a' := adjust (len s) a in
  let b' := adjust (len s) b in
  firstn (Z.to_nat (b' - a')) (skipn (Z.to_nat a') s).

(** [s[:k]] *)
Definition slice_to {A} (s : list A) (k : Z) : list A := slice s 0 k.

Fixpoint last_index (c : ascii) (s : str) (i found : Z) : Z :=
  match s with
  | [] => found
  | x :: s' => last_index c s' (i + 1) (if Ascii.eqb x c then i else found)
  end.

(** [s.rfind(c, a, b)] for a one-character [c]: the highest index in the
    slice [s[a:b]] holding [c], or [-1]. *)
Definition rfind (c : ascii) (s : str) (a b : Z) : Z :=
  let a' := adjust (len s) a in
  last_index c (slice s a b) a' (-1).

Fixpoint lstrip (s : str) : str :=
  match s with
  | c :: s' => if isspace c then lstrip s' else s
  | [] => []
  end.

(** [s.strip()] *)
Definition strip (s : str) : str := rev (lstrip (rev (lstrip s))).

(** Truth value of a sequence: [if s:] *)
Definition truthy {A} (s : list A) : bool :=
  match s with [] => false | _ => true end.

Fixpoint prefixb (p s : str) : bool :=
  match p, s with
  | [], _ => true
  | x :: p', y :: s' => Ascii.eqb x y && prefixb p' s'
  | _ :: _, [] => false
  end.

(** [k in s] on strings *)
Fixpoint contains (k s : str) : bool :=
  prefixb k s || match s with [] => false | _ :: s' => contains k s' end.

(** The scan of [str.replace] for a non-empty [old]: left to right, each
    match is replaced and the scan resumes after it; [skip] counts the
    code points of the current match that are still to be passed over. *)
Fixpoint replace_scan (old new : str) (skip : nat) (s : str) : str :=
  match s with
  | [] => []
  | c :: s' =>
      match skip with
      | S n => replace_scan old new n s'
      | O => if prefixb old s
             then new ++ replace_scan old new (length old - 1) s'
             else c :: replace_scan old new O s'
      end
  end.

(** [s.replace(old, new)]; with an empty [old], [new] goes before every
    code point and at the end. *)
Definition replace (s old new : str) : str :=
  match old with
  | [] => flat_map (fun c => new ++ [c]) s ++ new
  | _ => replace_scan old new O s
  end.

(** [re.findall(r'\b\w+\b', s)]: the maximal runs of word characters;
    [cur] is the run being read, reversed. *)
Fixpoint findall_words (cur : str) (s : str) : list str :=
  match s with
  | [] => match cur with [] => [] | _ => [rev cur] end
  | c :: s' =>
      if is_word c then findall_words (c :: cur) s'
      else match cur with
           | [] => findall_words [] s'
           | _ => rev cur :: findall_words [] s'
           end
  end.

(** Exceptions the modelled code raises. *)
Inductive exn :=
| ValueError (msg : string)
| RuntimeError (msg : string)
| KeyError (key : str)
| IndexError
| AttributeError
| ZeroDivisionError
| FileNotFoundError (path : str).

Inductive result (A : Type) :=
| Ok (a : A)
| Raise (e : exn).
Arguments Ok {A} a.
Arguments Raise {A} e.

Definition bind {A B} (r : result A) (k : A -> result B) : result B :=
  match r with Ok a => k a | Raise e => Raise e end.

(** [for x in l: ...] with a body that may raise, collecting results. *)
Fixpoint mapM {A B} (f : A -> result B) (l : list A) : result (list B) :=
  match l with
  | [] => Ok []
  | x :: l' => bind (f x) (fun y => bind (mapM f l') (fun ys => Ok (y :: ys)))
  end.

(** The values of the fields of a chunk: strings and numbers, all of them
    hashable. *)
Inductive value :=
| VStr (s : str)
| VInt (z : Z)
| VFloat (f : float)
| VBool (b : bool).

(** Dictionaries keyed by strings. *)
Definition dict (V : Type) := list (str * V).

Fixpoint dict_get {V} (d : dict V) (k : str) : option V :=
  match d with
  | [] => None
  | (k', v) :: d' => if str_eqb k' k then Some v else dict_get d' k
  end.

(** [k in d] *)
Definition dict_mem {V} (d : dict V) (k : str) : bool :=
  match dict_get d k with Some _ => true | None => false end.

(** [d[k] = v]: an existing key keeps its place, a new key goes last. *)
Fixpoint dict_set {V} (d : dict V) (k : str) (v : V) : dict V :=
  match d with
  | [] => [(k, v)]
  | (k', v') :: d' =>
      if str_eqb k' k then (k', v) :: d' else (k', v') :: dict_set d' k v
  end.

(** [d[k]] *)
Definition dict_item {V} (d : dict V) (k : str) : result V :=
  match dict_get d k with Some v => Ok v | None => Raise (KeyError k) end.

(** [d.get(k, default)] *)
Definition dict_get_default {V} (d : dict V) (k : str) (default : V) : V :=
  match dict_get d k with Some v => v | None => default end.

(** [k in l] on a list of strings *)
Definition list_mem (k : str) (l : list str) : bool := existsb (str_eqb k) l.

End Py.
Import Py.

(** ** document_processor.py *)

Module DocumentProcessor.

(** One pass through the body of the [while] loop of [chunk_text], from the
    loop variables [start] and [chunks] to their next values. *)
Definition chunk_body (text : str) (chunk_size overlap : Z)
    (start : Z) (chunks : list str) : Z * list str :=
  let end0 := start + chunk_size in
  let end1 :=
    if end0 <? len text then
      let last_period := rfind "."%char text start end0 in
      let last_question := rfind "?"%char text start end0 in
      let last_exclamation := rfind "!"%char text start end0 in
      let best_break := Z.max (Z.max last_period last_question) last_exclamation in
      if best_break >? start then best_break + 1 else end0
    else end0 in
  let chunk := strip (slice text start end1) in
  let chunks' := if truthy chunk then chunks ++ [chunk] else chunks in
  let start' := if end1 - overlap <=? start then end1 else end1 - overlap in
  (start', chunks').

(** [while start < len(text): ...]; [None] when [fuel] iterations did not
    reach the exit of the loop. *)
Fixpoint chunk_loop (fuel : nat) (text : str) (chunk_size overlap : Z)
    (start : Z) (chunks : list str) : option (list str) :=
  if start <? len text then
    match fuel with
    | O => None
    | S fuel' =>
        let '(start', chunks') := chunk_body text chunk_size overlap start chunks in
        chunk_loop fuel' text chunk_size overlap start' chunks'
    end
  else Some chunks.

(** [chunk_text(text, chunk_size, overlap)] run for at most [fuel]
    iterations of its loop. *)
Definition chunk_text_fuel (fuel : nat) (text : str) (chunk_size overlap : Z)
    : option (list str) :=
  if len text <=? chunk_size then Some [text]
  else chunk_loop fuel text chunk_size overlap 0 [].

(** [chunk_text] with as many iterations as the text has code points, which
    is enough whenever the window is at least one code point wide. *)
Definition chunk_text (text : str) (chunk_size overlap : Z) : option (list str) :=
  chunk_text_fuel (length text) text chunk_size overlap.

End DocumentProcessor.

(** ** embeddings.py *)

Module Embeddings.

(** What the Python runtime decides and the source does not: the values of
    [math.log], and the order in which a [set] built from a list hands out
    its elements ([list(set(l))], [for x in set(l)]): each distinct element
    once, in an order of the runtime's choosing. *)
Class Runtime := {
  math_log : float -> float;
  set_list : list str -> list str;
  set_list_NoDup : forall l, NoDup (set_list l);
  set_list_In : forall l x, In x (set_list l) <-> In x l
}.

(** [pickle.dump] / [pickle.load]: some encoding into file contents that
    [load] inverts. *)
Class Pickle (A : Type) := {
  pickled : Type;
  pickle_dump : A -> pickled;
  pickle_load : pickled -> result A;
  pickle_load_dump : forall a, pickle_load (pickle_dump a) = Ok a
}.

(** [float(n)] for a count [n] (exact below 2^53). *)
Definition float_of_nat (n : nat) : float :=
  PrimFloat.of_uint63 (Uint63.of_Z (Z.of_nat n)).

(** [a / b] on two counts. *)
Definition truediv (a b : nat) : result float :=
  match b with
  | O => Raise ZeroDivisionError
  | S _ => Ok (float_of_nat a / float_of_nat b)%float
  end.

(** [sum(l)] over floats: the additions from left to right, starting
    from 0. *)
Definition fsum (l : list float) : float := fold_left PrimFloat.add l 0%float.

(** [v[idx] = x] on a list. *)
Definition list_setitem {A} (v : list A) (idx : Z) (x : A) : result (list A) :=
  let i := if idx <? 0 then idx + len v else idx in
  if (0 <=? i) && (i <? len v)
  then Ok (firstn (Z.to_nat i) v ++ x :: skipn (S (Z.to_nat i)) v)
  else Raise IndexError.

(** [{k: v for k, v in items}] *)
Definition dict_of_items {V} (items : list (str * V)) : dict V :=
  fold_left (fun d kv => dict_set d (fst kv) (snd kv)) items [].

(** [enumerate(l)], from [i]. *)
Fixpoint enumerate {A} (i : nat) (l : list A) : list (nat * A) :=
  match l with
  | [] => []
  | x :: l' => (i, x) :: enumerate (S i) l'
  end.

(** [collections.Counter(tokens)]: counts in order of first occurrence. *)
Definition Counter (tokens : list str) : dict nat :=
  fold_left (fun d t => dict_set d t (S (dict_get_default d t O))) tokens [].

(** *** class SimpleEmbeddings *)

Record SimpleEmbeddings := {
  vocabulary : dict Z;
  idf_scores : dict float;
  fitted : bool
}.

(** [SimpleEmbeddings.__init__] *)
Definition new_model : SimpleEmbeddings :=
  {| vocabulary := []; idf_scores := []; fitted := false |}.

Definition _tokenize (text : str) : list str := findall_words [] (lower text).

Definition _compute_tf (tokens : list str) : result (dict float) :=
  let total_tokens := length tokens in
  let token_counts := Counter tokens in
  fold_left
    (fun acc tc =>
       bind acc (fun tf =>
       bind (truediv (snd tc) total_tokens) (fun q =>
       Ok (dict_set tf (fst tc) q))))
    token_counts (Ok []).

(** The first loop of [_compute_idf]: in how many documents each word
    occurs. *)
Definition word_doc_count `{Runtime} (documents : list str) : dict nat :=
  fold_left
    (fun wdc doc =>
       let tokens := _tokenize doc in
       let unique_tokens := set_list tokens in
       fold_left (fun wdc token => dict_set wdc token (dict_get_default wdc token O + 1)%nat)
                 unique_tokens wdc)
    documents [].

Definition _compute_idf `{Runtime} (documents : list str) : result (dict float) :=
  let doc_count := length documents in
  fold_left
    (fun acc wc =>
       bind acc (fun idf =>
       bind (truediv doc_count (snd wc)) (fun q =>
       Ok (dict_set idf (fst wc) (math_log q)))))
    (word_doc_count documents) (Ok []).

(** [fit]: the model after the call.  The argument [self] is unused: every
    attribute is overwritten. *)
Definition fit `{Runtime} (self : SimpleEmbeddings) (documents : list str)
    : result SimpleEmbeddings :=
  let all_tokens := concat (map _tokenize documents) in
  let unique_tokens := set_list all_tokens in
  let vocabulary' :=
    dict_of_items (map (fun it => (snd it, Z.of_nat (fst it))) (enumerate O unique_tokens)) in
  bind (_compute_idf documents) (fun idf =>
  Ok {| vocabulary := vocabulary'; idf_scores := idf; fitted := true |}).

Definition transform (self : SimpleEmbeddings) (text : str) : result (list float) :=
  if negb (fitted self) then
    Raise (ValueError "Model must be fitted before transforming")
  else
    let tokens := _tokenize text in
    bind (_compute_tf tokens) (fun tf_scores =>
    let vector := repeat 0%float (length (vocabulary self)) in
    fold_left
      (fun acc ttf =>
         bind acc (fun vector =>
         let token := fst ttf in
         let tf := snd ttf in
         match dict_get (vocabulary self) token with
         | Some idx =>
             let idf := dict_get_default (idf_scores self) token 0%float in
             list_setitem vector idx (tf * idf)%float
         | None => Ok vector
         end))
      tf_scores (Ok vector)).

Definition fit_transform `{Runtime} (self : SimpleEmbeddings) (documents : list str)
    : result (SimpleEmbeddings * list (list float)) :=
  bind (fit self documents) (fun self' =>
  bind (mapM (transform self') documents) (fun vs =>
  Ok (self', vs))).

(** *** class VectorStore *)

(** A document chunk: [{'text': ..., 'source': ..., 'chunk_id': ..., ...}]. *)
Definition doc := dict value.

Record VectorStore := {
  vectors : list (list float);
  metadata : list doc;
  embeddings_model : SimpleEmbeddings
}.

(** [VectorStore.__init__] *)
Definition new_store : VectorStore :=
  {| vectors := []; metadata := []; embeddings_model := new_model |}.

(** A text on its way into the tokenizer, which calls [lower] on it: only
    a string has that method. *)
Definition as_text (v : value) : result str :=
  match v with VStr s => Ok s | _ => Raise AttributeError end.

(** [[doc['text'] for doc in documents]], then the texts as the tokenizer
    takes them. *)
Definition doc_texts (documents : list doc) : result (list str) :=
  bind (mapM (fun d => dict_item d (lit "text")) documents) (mapM as_text).

(** [add_documents]: the store after the call.  When the call raises, it
    does so before any attribute of the store is assigned. *)
Definition add_documents `{Runtime} (self : VectorStore) (documents : list doc)
    : result VectorStore :=
  bind (doc_texts documents) (fun texts =>
  bind (fit_transform (embeddings_model self) texts) (fun mv =>
  Ok {| vectors := vectors self ++ snd mv;
        metadata := metadata self ++ documents;
        embeddings_model := fst mv |})).

(** [_cosine_similarity].  The divisor is a product of two non-zero square
    roots of doubles, which is never zero, so the division does not raise. *)
Definition _cosine_similarity (vec1 vec2 : list float) : float :=
  let dot_product := fsum (map (fun ab => fst ab * snd ab)%float (combine vec1 vec2)) in
  let magnitude1 := PrimFloat.sqrt (fsum (map (fun a => a * a)%float vec1)) in
  let magnitude2 := PrimFloat.sqrt (fsum (map (fun a => a * a)%float vec2)) in
  if (magnitude1 =? 0)%float || (magnitude2 =? 0)%float then 0%float
  else (dot_product / (magnitude1 * magnitude2))%float.

(** [a < b] on the tuples [(similarity, i)]: the first components decide
    unless they are equal. *)
Definition tuple_lt (a b : float * nat) : bool :=
  if (fst a =? fst b)%float then (snd a <? snd b)%nat else (fst a <? fst b)%float.

Fixpoint insert_sorted (x : float * nat) (l : list (float * nat)) : list (float * nat) :=
  match l with
  | [] => [x]
  | y :: l' => if tuple_lt x y then x :: l else y :: insert_sorted x l'
  end.

(** A stable ascending sort that compares with [<] only. *)
Definition sort_ascending (l : list (float * nat)) : list (float * nat) :=
  fold_left (fun acc x => insert_sorted x acc) l [].

(** [l.sort(reverse=True)]: CPython reverses the list, sorts it ascending
    and stably, and reverses it again. *)
Definition sort_reverse (l : list (float * nat)) : list (float * nat) :=
  rev (sort_ascending (rev l)).

(** The list [similarities] of [similarity_search], before sorting. *)
Definition similarities (query_vector : list float) (vs : list (list float))
    : list (float * nat) :=
  map (fun iv => (_cosine_similarity query_vector (snd iv), fst iv)) (enumerate O vs).

(** [similarities[:k]] after the sort: the ranked row ids. *)
Definition ranking (query_vector : list float) (vs : list (list float)) (k : Z)
    : list (float * nat) :=
  slice_to (sort_reverse (similarities query_vector vs)) k.

(** The body of the last loop: the result entry of one ranked row. *)
Definition result_entry (md : list doc) (si : float * nat) : result doc :=
  match nth_error md (snd si) with
  | Some d => Ok (dict_set d (lit "similarity") (VFloat (fst si)))
  | None => Raise IndexError
  end.

Definition similarity_search (self : VectorStore) (query : str) (k : Z)
    : result (list doc) :=
  if negb (truthy (vectors self)) then Ok []
  else
    bind (transform (embeddings_model self) query) (fun query_vector =>
    mapM (result_entry (metadata self)) (ranking query_vector (vectors self) k)).

(** The dictionary that [save] pickles. *)
Record model_data := {
  data_vocabulary : dict Z;
  data_idf_scores : dict float;
  data_fitted : bool
}.

Record store_data := {
  data_vectors : list (list float);
  data_metadata : list doc;
  data_embeddings_model : model_data
}.

(** The files of the store: path to contents. *)
Definition files `{Pickle store_data} := dict pickled.

(** [save]: the files after the call. *)
Definition save `{Pickle store_data} (self : VectorStore) (filepath : str) (fs : files)
    : files :=
  let data :=
    {| data_vectors := vectors self;
       data_metadata := metadata self;
       data_embeddings_model :=
         {| data_vocabulary := vocabulary (embeddings_model self);
            data_idf_scores := idf_scores (embeddings_model self);
            data_fitted := fitted (embeddings_model self) |} |} in
  dict_set fs filepath (pickle_dump data).

(** [load]: the store after the call. *)
Definition load `{Pickle store_data} (self : VectorStore) (filepath : str) (fs : files)
    : result VectorStore :=
  match dict_get fs filepath with
  | None => Raise (FileNotFoundError filepath)
  | Some contents =>
      bind (pickle_load contents) (fun data =>
      let model_data := data_embeddings_model data in
      Ok {| vectors := data_vectors data;
            metadata := data_metadata data;
            embeddings_model :=
              {| vocabulary := data_vocabulary model_data;
                 idf_scores := data_idf_scores model_data;
                 fitted := data_fitted model_data |} |})
  end.

End Embeddings.
Import Embeddings.

(** ** role_filter.py *)

Module RoleFilter.

Record permissions := {
  all_documents : bool;
  sensitive_info : bool
}.

Definition role_permissions : dict permissions :=
  [ (lit "admin",    {| all_documents := true;  sensitive_info := true |});
    (lit "manager",  {| all_documents := true;  sensitive_info := false |});
    (lit "employee", {| all_documents := false; sensitive_info := false |});
    (lit "public",   {| all_documents := false; sensitive_info := false |}) ].

Definition document_restrictions : dict (list str) :=
  [ (lit "cybersecurity.txt", [lit "admin"; lit "manager"]);
    (lit "cloud_devops.txt",  [lit "admin"; lit "manager"; lit "employee"]) ].

Definition sensitive_keywords : list str :=
  [ lit "security"; lit "password"; lit "encryption"; lit "vulnerability";
    lit "attack"; lit "penetration"; lit "firewall"; lit "intrusion" ].

(** The default of the look-up in [document_restrictions]. *)
Definition every_role : list str :=
  [lit "admin"; lit "manager"; lit "employee"; lit "public"].

(** [if user_role not in self.role_permissions: user_role = 'public'] *)
Definition effective_role (user_role : str) : str :=
  if negb (dict_mem role_permissions user_role) then lit "public" else user_role.

(** [self.document_restrictions.get(doc.get('source', ''), [...])]; only a
    string can be a key of the table. *)
Definition allowed_roles (d : doc) : list str :=
  match dict_get_default d (lit "source") (VStr []) with
  | VStr source => dict_get_default document_restrictions source every_role
  | _ => every_role
  end.

Definition filter_documents (documents : list doc) (user_role : str)
    : result (list doc) :=
  let user_role := effective_role user_role in
  bind (dict_item role_permissions user_role) (fun perms =>
  if all_documents perms then Ok documents
  else
    Ok (fold_left
          (fun filtered_docs d =>
             if list_mem user_role (allowed_roles d)
             then filtered_docs ++ [d] else filtered_docs)
          documents [])).

(** [f"[{keyword.upper()}_INFO_RESTRICTED]"] *)
Definition restriction_marker (keyword : str) : str :=
  lit "[" ++ upper keyword ++ lit "_INFO_RESTRICTED]".

Definition newline : ascii := ascii_of_nat 10.

Definition disclaimer : str :=
  [newline; newline]
  ++ lit "[Note: Some sensitive information has been filtered based on your access level.]".

(** The [for keyword in self.sensitive_keywords] loop of [filter_response]. *)
Definition redact (keywords : list str) (response : str) : str :=
  fold_left
    (fun filtered_response keyword =>
       if contains (lower keyword) (lower filtered_response)
       then replace filtered_response keyword (restriction_marker keyword)
       else filtered_response)
    keywords response.

Definition filter_response (response : str) (user_role : str) : result str :=
  let user_role := effective_role user_role in
  bind (dict_item role_permissions user_role) (fun perms =>
  if sensitive_info perms then Ok response
  else
    let filtered_response := redact sensitive_keywords response in
    if negb (str_eqb filtered_response response)
    then Ok (filtered_response ++ disclaimer)
    else Ok filtered_response).

End RoleFilter.
Import RoleFilter.

(** ** ai_query_system.py

    What [query] writes with [print] is not part of the model. *)

Module AIQuerySystem.

(** What [LLMManager.generate_response] returns. *)
Record llm_response := {
  llm_text : str;            (* 'response' *)
  llm_sources : list value;  (* 'sources' *)
  llm_model : str;           (* 'model' *)
  llm_context_used : Z       (* 'context_used' *)
}.

(** The values of the fields of the answer of [query]: a plain value or a
    list of them. *)
Inductive answer_value :=
| Plain (v : value)
| Listed (l : list value).

(** The answer-generation collaborator: a call may raise. *)
Definition llm := str -> list doc -> result llm_response.

(** One call of the collaborator: its arguments. *)
Definition llm_call := (str * list doc)%type.

(** The attributes of [AIQuerySystem] that [query] reads. *)
Record AIQuerySystem := {
  vector_store : VectorStore;
  initialized : bool
}.

Definition no_information : str :=
  lit "I couldn't find any relevant information in the documents accessible to your role.".

(** [query]: what the call returns or raises, and the calls of the
    collaborator it made on the way.  [timestamp] is the value of
    [datetime.now().isoformat()] at the call. *)
Definition query (generate_response : llm) (timestamp : str)
    (self : AIQuerySystem) (question : str) (top_k : Z) (user_role : str)
    : result (dict answer_value) * list llm_call :=
  if negb (initialized self) then
    (Raise (RuntimeError "System not initialized. Call initialize() first."), [])
  else
    match similarity_search (vector_store self) question top_k with
    | Raise e => (Raise e, [])
    | Ok context_chunks =>
    match filter_documents context_chunks user_role with
    | Raise e => (Raise e, [])
    | Ok context_chunks =>
      if negb (truthy context_chunks) then
        (Ok [ (lit "query", Plain (VStr question));
              (lit "response", Plain (VStr no_information));
              (lit "sources", Listed []);
              (lit "timestamp", Plain (VStr timestamp));
              (lit "context_chunks", Plain (VInt 0));
              (lit "user_role", Plain (VStr user_role)) ], [])
      else
        let calls := [(question, context_chunks)] in
        match generate_response question context_chunks with
        | Raise e => (Raise e, calls)
        | Ok llm_response =>
        match filter_response (llm_text llm_response) user_role with
        | Raise e => (Raise e, calls)
        | Ok filtered_response =>
          (Ok [ (lit "query", Plain (VStr question));
                (lit "response", Plain (VStr filtered_response));
                (lit "sources", Listed (llm_sources llm_response));
                (lit "model_used", Plain (VStr (llm_model llm_response)));
                (lit "context_chunks", Plain (VInt (llm_context_used llm_response)));
                (lit "timestamp", Plain (VStr timestamp));
                (lit "similarity_scores",
                 Listed (map (fun chunk => dict_get_default chunk (lit "similarity") (VInt 0))
                            context_chunks));
                (lit "user_role", Plain (VStr user_role));
                (lit "filtered",
                 Plain (VBool (negb (str_eqb filtered_response (llm_text llm_response))))) ],
           calls)
        end
        end
    end
    end.

End AIQuerySystem.

(** ** Concrete inputs used below *)

Module Examples.

(** A chunk as [process_documents] builds it. *)
Definition chunk (text source : string) (chunk_id : Z) : doc :=
  [ (lit "text", VStr (lit text));
    (lit "source", VStr (lit source));
    (lit "chunk_id", VInt chunk_id);
    (lit "file_path", VStr (lit "documents/" ++ lit source)) ].

(** The store that [add_documents] builds from three chunks with the texts
    "a", "a" and "b": the vocabulary has two columns, and the IDF scores are
    the doubles [math.log(3/2)] and [math.log(3/1)]. *)
Definition idf_a : float := 0x1.9f323ecbf984cp-2%float.
Definition idf_b : float := 0x1.193ea7aad030bp+0%float.

(** [math.log] at the two arguments that fitting these three chunks needs,
    [3/2] and [3/1]. *)
Definition log_table (x : float) : float :=
  if (x =? 0x1.8p+0)%float then idf_a
  else if (x =? 0x1.8p+1)%float then idf_b
  else 0%float.

Definition three_chunks : list doc :=
  [ chunk "a" "notes.txt" 0; chunk "a" "notes.txt" 1; chunk "b" "notes.txt" 2 ].

Definition three_store : VectorStore :=
  {| vectors := [ [idf_a; 0%float]; [idf_a; 0%float]; [0%float; idf_b] ];
     metadata := three_chunks;
     embeddings_model :=
       {| vocabulary := [ (lit "a", 0); (lit "b", 1) ];
          idf_scores := [ (lit "a", idf_a); (lit "b", idf_b) ];
          fitted := true |} |}.

(** The same store with chunks of a source that only "admin" and "manager"
    may see. *)
Definition restricted_store : VectorStore :=
  {| vectors := vectors three_store;
     metadata := [ chunk "a" "cybersecurity.txt" 0; chunk "a" "cybersecurity.txt" 1;
                   chunk "b" "cybersecurity.txt" 2 ];
     embeddings_model := embeddings_model three_store |}.

(** [result['similarity'] = similarity] on a chunk. *)
Definition scored (d : doc) (similarity : float) : doc :=
  dict_set d (lit "similarity") (VFloat similarity).

End Examples.
Import Examples.

(** ** Notions used in the statements *)

Module Notions.

Definition str_eq_dec : forall a b : str, {a = b} + {a <> b} :=
  list_eq_dec ascii_dec.

(** A run time that hands out the elements of a set in the order of their
    last occurrence, with [log] for [math.log]. *)
#[refine] Instance last_occurrence_runtime (log : float -> float) : Runtime := {|
  math_log := log;
  set_list := nodup str_eq_dec
|}.
Proof.
  - intros l; apply NoDup_nodup.
  - intros l x; apply nodup_In.
Defined.

(** A pickle that stores the object itself. *)
Instance identity_pickle (A : Type) : Pickle A := {|
  pickled := A;
  pickle_dump := fun a => a;
  pickle_load := fun a => Ok a;
  pickle_load_dump := fun a => eq_refl
|}.

(** The error of [transform] on a model that was not fitted. *)
Definition unfitted_error : exn :=
  ValueError "Model must be fitted before transforming".

(** The vocabulary of a fitted model numbers its tokens from 0 upwards,
    without gaps. *)
Definition columns_in_range (m : SimpleEmbeddings) : Prop :=
  forall token idx,
    dict_get (vocabulary m) token = Some idx -> 0 <= idx < len (vocabulary m).

(** The loop of [transform] that fills the vector. *)
Definition fill (m : SimpleEmbeddings) (tf_scores : dict float) (acc : result (list float))
    : result (list float) :=
  fold_left
    (fun acc ttf =>
       bind acc (fun vector =>
       match dict_get (vocabulary m) (fst ttf) with
       | Some idx =>
           list_setitem vector idx
             (snd ttf * dict_get_default (idf_scores m) (fst ttf) 0)%float
       | None => Ok vector
       end))
    tf_scores acc.

(** A similarity that takes part in comparisons: any double but NaN. *)
Definition comparable (x : float) : Prop := Prim2SF x <> S754_nan.

Definition all_comparable (l : list (float * nat)) : Prop :=
  Forall (fun x => comparable (fst x)) l.

(** The order of the ranked rows [(similarity, row id)] as the code
    produces it: higher similarity first, and among equal similarities the
    higher row id first. *)
Definition ranked_before (a b : float * nat) : Prop :=
  (fst b <? fst a)%float = true \/
  ((fst a =? fst b)%float = true /\ (snd b < snd a)%nat).

(** The order of the ranked rows as the specification words it: higher
    similarity first, and among equal similarities the lower row id
    (insertion position) first. *)
Definition ranked_before_by_insertion (a b : float * nat) : Prop :=
  (fst b <? fst a)%float = true \/
  ((fst a =? fst b)%float = true /\ (snd a < snd b)%nat).

(** A position of the total order that the comparisons of doubles follow:
    sign class first, then exponent and mantissa. *)
Definition key (f : spec_float) : Z * (Z * Z) :=
  match f with
  | S754_infinity true => (-2, (0, 0))
  | S754_finite true m e => (-1, (- e, - Zpos m))
  | S754_zero _ => (0, (0, 0))
  | S754_nan => (0, (0, 0))
  | S754_finite false m e => (1, (e, Zpos m))
  | S754_infinity false => (2, (0, 0))
  end.

Definition key_lt (a b : Z * (Z * Z)) : Prop :=
  fst a < fst b \/
  (fst a = fst b /\
   (fst (snd a) < fst (snd b) \/
    (fst (snd a) = fst (snd b) /\ snd (snd a) < snd (snd b)))).

Definition fkey (x : float) : Z * (Z * Z) := key (Prim2SF x).

(** [a < b] on tuples, as a relation on keys. *)
Definition tuple_before (a b : float * nat) : Prop :=
  key_lt (fkey (fst a)) (fkey (fst b)) \/
  (fkey (fst a) = fkey (fst b) /\ (snd a < snd b)%nat).

(** The access policy in the words of the specification. *)
Definition least_privileged_role : str := lit "public".

Definition normalize_role (role : str) : str :=
  if dict_mem role_permissions role then role else least_privileged_role.

Definition canSeeAllDocuments (role : str) : bool :=
  match dict_get role_permissions (normalize_role role) with
  | Some perms => all_documents perms
  | None => false
  end.

Definition canSeeSensitiveInfo (role : str) : bool :=
  match dict_get role_permissions (normalize_role role) with
  | Some perms => sensitive_info perms
  | None => false
  end.

(** The allow-list of the source of a chunk: every role when the source is
    not in the restriction table. *)
Definition allow_list (chunk : doc) : list str :=
  match dict_get chunk (lit "source") with
  | Some (VStr source) =>
      match dict_get document_restrictions source with
      | Some roles => roles
      | None => every_role
      end
  | _ => every_role
  end.

(** [filterChunks] as the specification describes it. *)
Definition filterChunks (chunks : list doc) (role : str) : list doc :=
  if canSeeAllDocuments role then chunks
  else filter (fun chunk => list_mem (normalize_role role) (allow_list chunk)) chunks.

(** [k] occurs in [s] as a substring. *)
Definition occurs_in (k s : str) : Prop := exists a b, s = a ++ k ++ b.

(** The non-empty suffixes of a string. *)
Fixpoint tails (s : str) : list str :=
  match s with
  | [] => []
  | _ :: s' => s :: tails s'
  end.

(** Neither string is a prefix of the other. *)
Definition prefix_incomparable (x y : str) : bool :=
  negb (prefixb x y) && negb (prefixb y x).

(** No occurrence of [x] can begin inside an occurrence of [y]. *)
Definition apart_from (x y : str) : bool := forallb (prefix_incomparable x) (tails y).

(** Occurrences of [x] and of [y] in one string never share a position. *)
Definition no_overlap (x y : str) : bool := apart_from x y && apart_from y x.

Definition no_shared_char (u v : str) : bool :=
  forallb (fun c => negb (existsb (Ascii.eqb c) v)) u.

(** One pass of the keyword loop of [filter_response]. *)
Definition redact_step (filtered_response keyword : str) : str :=
  if contains (lower keyword) (lower filtered_response)
  then replace filtered_response keyword (restriction_marker keyword)
  else filtered_response.

(** What the redaction of [keyword] needs from the keywords before and
    after it in the list: lower-case spelling, no overlap with the keywords
    before it, a marker that later keywords leave alone, and markers that
    do not spell the keyword. *)
Definition redaction_safe (before : list str) (keyword : str) (after : list str) : bool :=
  forallb (fun k => truthy k && no_overlap k keyword) before
  && truthy keyword
  && str_eqb (lower keyword) keyword
  && no_shared_char keyword (restriction_marker keyword)
  && forallb (fun k => truthy k
                       && no_overlap k (restriction_marker keyword)
                       && no_shared_char keyword (restriction_marker k)) after.

(** The error of [query] on a system that was not initialized. *)
Definition uninitialized_error : exn :=
  RuntimeError "System not initialized. Call initialize() first.".

End Notions.
Import Notions.

(** ** document_processor.py: loading and processing *)

Module DocumentFiles.
Import DocumentProcessor.

(** The documents directory as [load_documents] meets it: missing, or the
    names that [os.listdir] hands out, in its order, each with the text that
    reading the file as UTF-8 gives ([None] when opening or decoding
    fails). *)
Definition directory := option (list (str * option str)).

(** [s.endswith(suffix)] *)
Definition endswith (s suffix : str) : bool := prefixb (rev suffix) (rev s).

(** [os.path.join(a, b)] with the separator "/". *)
Definition path_join (a b : str) : str :=
  if prefixb (lit "/") b then b
  else if negb (truthy a) || endswith a (lit "/") then a ++ b
  else a ++ lit "/" ++ b.

(** The dictionary [{'filename': ..., 'content': ..., 'file_path': ...}]. *)
Record document := {
  filename : str;
  content : str;
  file_path : str
}.

(** [_load_text_file]: any exception while reading gives the empty text. *)
Definition _load_text_file (readable : option str) : str :=
  match readable with
  | Some text => text
  | None => []
  end.

Definition load_documents (documents_dir : str) (dir : directory)
    : result (list document) :=
  match dir with
  | None =>
      Raise (FileNotFoundError
               (lit "Documents directory '" ++ documents_dir ++ lit "' not found"))
  | Some entries =>
      Ok (fold_left
            (fun documents entry =>
               let file_path := path_join documents_dir (fst entry) in
               if endswith (fst entry) (lit ".txt")
               then documents ++ [ {| filename := fst entry;
                                      content := _load_text_file (snd entry);
                                      file_path := file_path |} ]
               else documents)
            entries [])
  end.

(** [self.chunk_text(doc['content'])], with the default window of 500 and
    overlap of 50.  The loop returns within as many iterations as the text
    has code points, so the second branch is never taken. *)
Definition default_chunks (text : str) : list str :=
  match chunk_text text 500 50 with
  | Some chunks => chunks
  | None => []
  end.

(** The dictionary that [process_documents] appends for one chunk. *)
Definition processed_chunk (d : document) (i : nat) (chunk : str) : doc :=
  [ (lit "text", VStr chunk);
    (lit "source", VStr (filename d));
    (lit "chunk_id", VInt (Z.of_nat i));
    (lit "file_path", VStr (file_path d)) ].

Definition process_documents (documents_dir : str) (dir : directory)
    : result (list doc) :=
  bind (load_documents documents_dir dir) (fun documents =>
  Ok (fold_left
        (fun processed_chunks d =>
           fold_left
             (fun processed_chunks ic =>
                processed_chunks ++ [processed_chunk d (fst ic) (snd ic)])
             (enumerate O (default_chunks (content d)))
             processed_chunks)
        documents [])).

End DocumentFiles.
Import DocumentFiles.

(** ** ai_query_system.py: initialize *)

Module Initialize.
Import AIQuerySystem.

(** [initialize(force_rebuild)]: what the call returns or raises, the system
    after it and the files after it.  [os.path.exists] is the presence of the
    snapshot among the files; an exception of [load] leads to the rebuild;
    an exception of the rebuild leaves the system and the files as they
    were.  What the method prints is not part of the model. *)
Definition initialize `{Runtime} `{Pickle store_data}
    (documents_dir vector_store_path : str) (dir : directory)
    (self : AIQuerySystem) (force_rebuild : bool) (fs : files)
    : result unit * AIQuerySystem * files :=
  let rebuild :=
    match process_documents documents_dir dir with
    | Raise e => (Raise e, self, fs)
    | Ok chunks =>
        match add_documents (vector_store self) chunks with
        | Raise e => (Raise e, self, fs)
        | Ok store =>
            (Ok tt,
             {| vector_store := store; initialized := true |},
             save store vector_store_path fs)
        end
    end in
  if dict_mem fs vector_store_path && negb force_rebuild then
    match load (vector_store self) vector_store_path fs with
    | Ok store => (Ok tt, {| vector_store := store; initialized := true |}, fs)
    | Raise _ => rebuild
    end
  else rebuild.

End Initialize.
Import Initialize.

(** ** Further notions used in the statements *)

Module MoreNotions.

(** In how many of the documents a token occurs. *)
Definition document_frequency (token : str) (documents : list str) : nat :=
  length (filter (fun d => list_mem token (_tokenize d)) documents).

(** How often a token occurs in a token list. *)
Definition occurrences (token : str) (tokens : list str) : nat :=
  count_occ str_eq_dec tokens token.

(** A count added to an optional count: nothing added leaves it as it is. *)
Definition bump (o : option nat) (n : nat) : option nat :=
  match n with
  | O => o
  | S _ => Some (match o with Some c => c | None => O end + n)%nat
  end.

(** The number of elements of the slice [l[:k]] of a list of [n]
    elements. *)
Definition slice_to_len (n k : Z) : Z :=
  if k <? 0 then Z.max 0 (n + k) else Z.min k n.

(** No white space at either end. *)
Definition trimmed (s : str) : Prop := lstrip s = s /\ lstrip (rev s) = rev s.

End MoreNotions.
Import MoreNotions.

(* ================================================================== *)
(** * Part II: properties *)
(* ================================================================== *)

(** ** Facts about the built-ins *)

Module PyFacts.

Lemma str_eqb_refl (a : str) : str_eqb a a = true.
Proof.
  induction a as [|x a IH]; simpl; [reflexivity|].
  now rewrite Ascii.eqb_refl, IH.
Qed.

Lemma str_eqb_eq (a b : str) : str_eqb a b = true <-> a = b.
Proof.
  split; [|intros ->; apply str_eqb_refl].
  revert b; induction a as [|x a IH]; intros [|y b]; simpl; try discriminate; auto.
  intros H; apply andb_true_iff in H as [Hx Hab].
  apply Ascii.eqb_eq in Hx; subst; f_equal; auto.
Qed.

Lemma str_eqb_neq (a b : str) : str_eqb a b = false <-> a <> b.
Proof.
  split.
  - intros H ->; rewrite str_eqb_refl in H; discriminate.
  - intros H; destruct (str_eqb a b) eqn:E; [|reflexivity].
    apply str_eqb_eq in E; contradiction.
Qed.

Lemma len_nonneg {A} (s : list A) : 0 <= len s.
Proof. unfold len; lia. Qed.

Lemma slice_length_le {A} (s : list A) (a b : Z) : (length (slice s a b) <= length s)%nat.
Proof.
  unfold slice; rewrite length_firstn, length_skipn; lia.
Qed.

Lemma slice_to_nonneg {A} (s : list A) (k : Z) :
  0 <= k -> slice_to s k = firstn (Z.to_nat k) s.
Proof.
  intros Hk; unfold slice_to, slice, adjust; simpl.
  pose proof (len_nonneg s) as Hn.
  replace (Z.min 0 (len s)) with 0 by lia; simpl.
  destruct (k <? 0) eqn:E; [lia|].
  rewrite Z.sub_0_r; unfold len.
  destruct (Z.le_ge_cases k (Z.of_nat (length s))).
  - now rewrite Z.min_l.
  - rewrite Z.min_r by lia; rewrite Nat2Z.id.
    rewrite !firstn_all2; auto; lia.
Qed.

Lemma slice_to_neg {A} (s : list A) (k : Z) :
  k < 0 -> slice_to s k = firstn (length s - Z.to_nat (- k)) s.
Proof.
  intros Hk; unfold slice_to, slice, adjust; simpl.
  pose proof (len_nonneg s) as Hn.
  replace (Z.min 0 (len s)) with 0 by lia; simpl.
  destruct (k <? 0) eqn:E; [|lia].
  rewrite Z.sub_0_r; unfold len; f_equal; lia.
Qed.

Lemma bind_Ok {A B} (r : result A) (k : A -> result B) (b : B) :
  bind r k = Ok b -> exists a, r = Ok a /\ k a = Ok b.
Proof. destruct r; simpl; [eauto|discriminate]. Qed.

Lemma mapM_length {A B} (f : A -> result B) (l : list A) (r : list B) :
  mapM f l = Ok r -> length r = length l.
Proof.
  revert r; induction l as [|x l IH]; simpl; intros r H.
  - now inversion H.
  - apply bind_Ok in H as (y & _ & H); apply bind_Ok in H as (ys & Hys & H).
    inversion H; subst; simpl; f_equal; auto.
Qed.

Lemma mapM_Ok {A B} (f : A -> result B) (g : A -> B) (l : list A) :
  (forall x, In x l -> f x = Ok (g x)) -> mapM f l = Ok (map g l).
Proof.
  induction l as [|x l IH]; simpl; intros H; [reflexivity|].
  rewrite H by auto; simpl; rewrite IH by auto; reflexivity.
Qed.

End PyFacts.
Import PyFacts.

(** ** chunk_text *)

Module ChunkFacts.
Import DocumentProcessor.

(** The short-text path returns its argument as it is. *)
Lemma chunk_text_short (fuel : nat) (text : str) (chunk_size overlap : Z) :
  len text <= chunk_size ->
  chunk_text_fuel fuel text chunk_size overlap = Some [text].
Proof.
  intros H; unfold chunk_text_fuel.
  now apply Z.leb_le in H; rewrite H.
Qed.

(** With a window of at least one code point, every pass through the loop
    body moves [start] forward. *)
Lemma chunk_body_progress (text : str) (chunk_size overlap start : Z) (chunks : list str) :
  1 <= chunk_size ->
  start < fst (chunk_body text chunk_size overlap start chunks).
Proof.
  intros Hcs; unfold chunk_body; cbv zeta; simpl fst.
  set (best := Z.max _ _).
  assert (Hend : start <
    (if start + chunk_size <? len text
     then if best >? start then best + 1 else start + chunk_size
     else start + chunk_size)).
  { destruct (start + chunk_size <? len text); [|lia].
    destruct (best >? start) eqn:E; [|lia].
    apply Z.gtb_lt in E; lia. }
  destruct (_ - overlap <=? start) eqn:E; [exact Hend|].
  apply Z.leb_gt in E; exact E.
Qed.

(** The loop body only ever appends chunks that are not empty. *)
Lemma chunk_body_nonempty (text : str) (chunk_size overlap start : Z) (chunks : list str) :
  Forall (fun c => c <> []) chunks ->
  Forall (fun c => c <> []) (snd (chunk_body text chunk_size overlap start chunks)).
Proof.
  intros H; unfold chunk_body; cbv zeta; simpl snd.
  destruct (strip _) as [|c s] eqn:E; simpl; [exact H|].
  apply Forall_app; split; [exact H|].
  constructor; [discriminate|constructor].
Qed.

(** More fuel does not change a result. *)
Lemma chunk_loop_fuel_mono (fuel fuel' : nat) (text : str) (chunk_size overlap : Z) :
  (fuel <= fuel')%nat ->
  forall start chunks r,
    chunk_loop fuel text chunk_size overlap start chunks = Some r ->
    chunk_loop fuel' text chunk_size overlap start chunks = Some r.
Proof.
  revert fuel'; induction fuel as [|fuel IH]; intros fuel' Hle start chunks r.
  - simpl; destruct (start <? len text) eqn:E; [discriminate|].
    intros H; destruct fuel'; simpl; now rewrite E.
  - destruct fuel' as [|fuel']; [lia|].
    simpl; destruct (start <? len text); [|auto].
    destruct (chunk_body text chunk_size overlap start chunks) as [s' c'].
    apply IH; lia.
Qed.

(** The loop reaches its exit when the window is at least one code point
    wide: [len text - start] iterations are enough. *)
Lemma chunk_loop_terminates (text : str) (chunk_size overlap : Z) :
  1 <= chunk_size ->
  forall fuel start chunks,
    len text - start <= Z.of_nat fuel ->
    exists r, chunk_loop fuel text chunk_size overlap start chunks = Some r.
Proof.
  intros Hcs; induction fuel as [|fuel IH]; intros start chunks Hfuel.
  - simpl; destruct (start <? len text) eqn:E; [|eauto].
    apply Z.ltb_lt in E; lia.
  - cbn [chunk_loop]; destruct (start <? len text) eqn:E; [|eauto].
    pose proof (chunk_body_progress text chunk_size overlap start chunks Hcs) as Hp.
    destruct (chunk_body text chunk_size overlap start chunks) as [s' c'].
    cbn [fst] in Hp; apply IH; rewrite Nat2Z.inj_succ in Hfuel; lia.
Qed.

Lemma chunk_loop_nonempty (text : str) (chunk_size overlap : Z) :
  forall fuel start chunks r,
    Forall (fun c => c <> []) chunks ->
    chunk_loop fuel text chunk_size overlap start chunks = Some r ->
    Forall (fun c => c <> []) r.
Proof.
  induction fuel as [|fuel IH]; intros start chunks r Hne; cbn [chunk_loop].
  - destruct (start <? len text); [discriminate|]; now intros [= <-].
  - destruct (start <? len text); [|now intros [= <-]].
    pose proof (chunk_body_nonempty text chunk_size overlap start chunks Hne) as Hb.
    destruct (chunk_body text chunk_size overlap start chunks) as [s' c'].
    apply IH; exact Hb.
Qed.

(** [chunk_text] returns for every text and every overlap when the window
    is at least one code point wide, and further fuel gives the same list. *)
Theorem chunk_text_terminates (text : str) (chunk_size overlap : Z) :
  1 <= chunk_size ->
  exists chunks,
    chunk_text text chunk_size overlap = Some chunks /\
    forall fuel, (length text <= fuel)%nat ->
      chunk_text_fuel fuel text chunk_size overlap = Some chunks.
Proof.
  intros Hcs; unfold chunk_text, chunk_text_fuel.
  destruct (len text <=? chunk_size); [eauto|].
  destruct (chunk_loop_terminates text chunk_size overlap Hcs (length text) 0 [])
    as [r Hr]; [unfold len; lia|].
  exists r; split; [exact Hr|].
  intros fuel Hf; eapply chunk_loop_fuel_mono; eauto.
Qed.

Lemma chunk_text_terminates_witness :
  exists chunks,
    chunk_text (lit "One. Two? Three!") 6 9 = Some chunks /\
    forall fuel, (length (lit "One. Two? Three!") <= fuel)%nat ->
      chunk_text_fuel fuel (lit "One. Two? Three!") 6 9 = Some chunks.
Proof. apply chunk_text_terminates; lia. Defined.

(** On the loop path every returned chunk is non-empty. *)
Lemma chunk_text_long_nonempty (fuel : nat) (text : str) (chunk_size overlap : Z) (r : list str) :
  chunk_size < len text ->
  chunk_text_fuel fuel text chunk_size overlap = Some r ->
  Forall (fun c => c <> []) r.
Proof.
  intros Hlong; unfold chunk_text_fuel.
  destruct (len text <=? chunk_size) eqn:E; [apply Z.leb_le in E; lia|].
  apply chunk_loop_nonempty; constructor.
Qed.

(** C2 (the code departs from the claim).  A text no longer than the window
    is returned as the only chunk exactly as it came in: [chunk_text("  a ")]
    is [["  a "]] although the trimmed text is ["a"], and [chunk_text("")]
    and [chunk_text("   ")] return one element that is empty after trimming,
    where the claim has the empty list. *)
Theorem chunk_text_short_text_not_trimmed :
  chunk_text (lit "  a ") 500 50 = Some [lit "  a "] /\
  strip (lit "  a ") = lit "a" /\
  chunk_text (lit "") 500 50 = Some [lit ""] /\
  chunk_text (lit "   ") 500 50 = Some [lit "   "] /\
  strip (lit "   ") = lit "".
Proof. repeat split; reflexivity. Qed.

(** With a window of width 0 the loop body maps the loop variables
    [start = 0], [chunks = []] to themselves. *)
Lemma chunk_body_zero_window_stuck :
  chunk_body (lit "a") 0 50 0 [] = (0, []).
Proof. reflexivity. Qed.

(** C7 (the code departs from the claim).  [chunk_text("a", 0, 50)] never
    returns: with a window of width 0, [end] equals [start], the forced next
    start [end] is [start] again, and the loop condition stays true.  No
    amount of fuel reaches the exit. *)
Theorem chunk_text_zero_window_never_returns :
  forall fuel, chunk_text_fuel fuel (lit "a") 0 50 = None.
Proof.
  intros fuel; unfold chunk_text_fuel.
  change (len (lit "a") <=? 0) with false; cbv iota.
  induction fuel as [|fuel IH]; [reflexivity|].
  cbn [chunk_loop].
  change (0 <? len (lit "a")) with true; cbv iota.
  rewrite chunk_body_zero_window_stuck; exact IH.
Qed.

End ChunkFacts.

(** ** Dictionaries *)

Module DictFacts.

Lemma dict_get_None {V} (d : dict V) (k : str) :
  dict_get d k = None <-> ~ In k (map fst d).
Proof.
  induction d as [|[k' v] d IH]; simpl; [tauto|].
  destruct (str_eqb k' k) eqn:E.
  - apply str_eqb_eq in E; subst; split; [discriminate|tauto].
  - apply str_eqb_neq in E; rewrite IH; tauto.
Qed.

Lemma dict_get_In {V} (d : dict V) (k : str) (v : V) :
  dict_get d k = Some v -> In (k, v) d.
Proof.
  induction d as [|[k' v'] d IH]; simpl; [discriminate|].
  destruct (str_eqb k' k) eqn:E; [|auto].
  apply str_eqb_eq in E; subst; intros [= ->]; auto.
Qed.

Lemma dict_set_fresh {V} (d : dict V) (k : str) (v : V) :
  dict_get d k = None -> dict_set d k v = d ++ [(k, v)].
Proof.
  induction d as [|[k' v'] d IH]; simpl; [reflexivity|].
  destruct (str_eqb k' k); [discriminate|].
  intros H; now rewrite IH.
Qed.

Lemma dict_set_values {V} (P : V -> Prop) (d : dict V) (k : str) (v : V) :
  P v -> Forall (fun kv => P (snd kv)) d ->
  Forall (fun kv => P (snd kv)) (dict_set d k v).
Proof.
  intros Hv; induction d as [|[k' v'] d IH]; simpl; intros Hd.
  - constructor; auto.
  - inversion Hd; subst; destruct (str_eqb k' k); constructor; auto.
Qed.

(** Items with pairwise distinct keys make the dictionary that lists them
    in the same order. *)
Lemma fold_dict_set_fresh {V} (items : list (str * V)) (d : dict V) :
  NoDup (map fst items) ->
  (forall k, In k (map fst items) -> ~ In k (map fst d)) ->
  fold_left (fun d kv => dict_set d (fst kv) (snd kv)) items d = d ++ items.
Proof.
  revert d; induction items as [|[k v] items IH]; simpl; intros d Hnd Hfresh.
  - now rewrite app_nil_r.
  - inversion Hnd as [|? ? Hk Hnd']; subst.
    rewrite dict_set_fresh by (apply dict_get_None; auto).
    rewrite IH; [now rewrite <- app_assoc|assumption|].
    intros k' Hk'; rewrite map_app, in_app_iff; simpl.
    intros [Hd|[->|[]]]; [eapply Hfresh; eauto|contradiction].
Qed.

Lemma dict_of_items_NoDup {V} (items : list (str * V)) :
  NoDup (map fst items) -> dict_of_items items = items.
Proof.
  intros H; unfold dict_of_items; now rewrite fold_dict_set_fresh.
Qed.

Lemma enumerate_snd {A} (l : list A) (i : nat) : map snd (enumerate i l) = l.
Proof. revert i; induction l; simpl; intros; f_equal; auto. Qed.

Lemma enumerate_length {A} (l : list A) (i : nat) : length (enumerate i l) = length l.
Proof. revert i; induction l; simpl; intros; f_equal; auto. Qed.

Lemma enumerate_In {A} (l : list A) (i j : nat) (x : A) :
  In (j, x) (enumerate i l) -> (i <= j < i + length l)%nat /\ nth_error l (j - i) = Some x.
Proof.
  revert i; induction l as [|y l IH]; simpl; intros i; [tauto|].
  intros [[= <- <-]|H].
  - rewrite Nat.sub_diag; split; [lia|reflexivity].
  - apply IH in H as [H1 H2]; split; [lia|].
    replace (j - i)%nat with (S (j - S i)) by lia; exact H2.
Qed.

End DictFacts.
Import DictFacts.

(** ** SimpleEmbeddings *)

Module ModelFacts.

Section WithRuntime.
Context `{Runtime}.

Lemma set_list_length_NoDup (l : list str) :
  NoDup l -> length (set_list l) = length l.
Proof.
  intros Hl; apply Permutation_length, NoDup_Permutation;
    auto using set_list_NoDup, set_list_In.
Qed.

(** A loop that fills a dictionary and divides on the way raises nothing
    when no divisor is zero. *)
Lemma fold_truediv_Ok {V} (num : V -> nat) (den : V -> nat) (g : float -> float)
    (l : list (str * V)) (d0 : dict float) :
  Forall (fun kv => den (snd kv) <> O) l ->
  exists d,
    fold_left
      (fun acc kv =>
         bind acc (fun d =>
         bind (truediv (num (snd kv)) (den (snd kv))) (fun q =>
         Ok (dict_set d (fst kv) (g q)))))
      l (Ok d0) = Ok d.
Proof.
  revert d0; induction l as [|kv l IH]; simpl; intros d0 Hl; [eauto|].
  inversion Hl; subst.
  destruct (den (snd kv)) eqn:E; [contradiction|]; simpl.
  apply IH; assumption.
Qed.

Lemma _compute_tf_Ok (tokens : list str) : exists tf, _compute_tf tokens = Ok tf.
Proof.
  unfold _compute_tf.
  destruct tokens as [|t tokens]; [simpl; eauto|].
  apply (fold_truediv_Ok (fun c => c) (fun _ => length (t :: tokens)) (fun q => q)).
  apply Forall_forall; intros; simpl; discriminate.
Qed.

Lemma word_doc_count_positive (documents : list str) :
  Forall (fun kv => snd kv <> O) (word_doc_count documents).
Proof.
  unfold word_doc_count.
  assert (Hinner : forall tokens wdc,
    Forall (fun kv => snd kv <> O) wdc ->
    Forall (fun kv : str * nat => snd kv <> O)
      (fold_left (fun wdc token => dict_set wdc token (dict_get_default wdc token O + 1)%nat)
                 tokens wdc)).
  { induction tokens as [|t tokens IH]; simpl; intros wdc Hw; [exact Hw|].
    apply IH, (dict_set_values (fun v => v <> O)); [lia|exact Hw]. }
  assert (Houter : forall docs wdc,
    Forall (fun kv => snd kv <> O) wdc ->
    Forall (fun kv : str * nat => snd kv <> O)
      (fold_left
         (fun wdc doc =>
            fold_left (fun wdc token => dict_set wdc token (dict_get_default wdc token O + 1)%nat)
                      (set_list (_tokenize doc)) wdc)
         docs wdc)).
  { induction docs as [|doc docs IH]; simpl; intros wdc Hw; [exact Hw|].
    apply IH, Hinner, Hw. }
  apply Houter; constructor.
Qed.

Lemma _compute_idf_Ok (documents : list str) :
  exists idf, _compute_idf documents = Ok idf.
Proof.
  unfold _compute_idf.
  apply (fold_truediv_Ok (fun _ => length documents) (fun c => c) math_log).
  apply word_doc_count_positive.
Qed.

Lemma fit_Ok (self : SimpleEmbeddings) (documents : list str) :
  exists m,
    fit self documents = Ok m /\ fitted m = true /\ columns_in_range m /\
    length (vocabulary m) = length (set_list (concat (map _tokenize documents))).
Proof.
  unfold fit.
  destruct (_compute_idf_Ok documents) as [idf ->]; simpl.
  eexists; split; [reflexivity|]; simpl.
  set (unique := set_list _).
  assert (Hkeys : map fst (map (fun it : nat * str => (snd it, Z.of_nat (fst it)))
                               (enumerate 0 unique)) = unique).
  { rewrite map_map; simpl; apply enumerate_snd. }
  rewrite dict_of_items_NoDup by (rewrite Hkeys; apply set_list_NoDup).
  split; [reflexivity|]; split.
  - intros token idx Hget; unfold columns_in_range, len; simpl in *.
    apply dict_get_In, in_map_iff in Hget as ([j t] & [= <- <-] & Hin).
    apply enumerate_In in Hin as [Hj _].
    rewrite length_map, enumerate_length; simpl; lia.
  - now rewrite length_map, enumerate_length.
Qed.

Lemma list_setitem_Ok {A} (v : list A) (idx : Z) (x : A) :
  0 <= idx < len v ->
  exists v', list_setitem v idx x = Ok v' /\ length v' = length v.
Proof.
  intros Hidx; unfold list_setitem.
  destruct (idx <? 0) eqn:E; [apply Z.ltb_lt in E; lia|].
  destruct (0 <=? idx) eqn:E1; [|apply Z.leb_gt in E1; lia].
  destruct (idx <? len v) eqn:E2; [|apply Z.ltb_ge in E2; lia]; cbn [andb].
  eexists; split; [reflexivity|].
  unfold len in Hidx.
  rewrite length_app; cbn [length]; rewrite length_firstn, length_skipn; lia.
Qed.

Lemma list_setitem_error {A} (v : list A) (idx : Z) (x : A) (e : exn) :
  list_setitem v idx x = Raise e -> e = IndexError.
Proof.
  unfold list_setitem; destruct (_ && _); [discriminate|now intros [= <-]].
Qed.

Lemma fill_Raise (m : SimpleEmbeddings) (tf_scores : dict float) (e : exn) :
  fill m tf_scores (Raise e) = Raise e.
Proof. unfold fill; induction tf_scores; simpl; auto. Qed.

Lemma fill_Ok (m : SimpleEmbeddings) (tf_scores : dict float) (v : list float) :
  columns_in_range m -> length v = length (vocabulary m) ->
  exists v', fill m tf_scores (Ok v) = Ok v' /\ length v' = length (vocabulary m).
Proof.
  intros Hm; revert v; induction tf_scores as [|[token tf] tfs IH]; intros v Hv.
  - simpl; eauto.
  - unfold fill in *; simpl.
    destruct (dict_get (vocabulary m) token) as [idx|] eqn:E; [|auto].
    destruct (list_setitem_Ok v idx (tf * dict_get_default (idf_scores m) token 0)%float)
      as (v' & -> & Hv').
    + apply Hm in E; unfold len in *; lia.
    + apply IH; lia.
Qed.

Lemma fill_error (m : SimpleEmbeddings) (tf_scores : dict float) (v : list float) (e : exn) :
  fill m tf_scores (Ok v) = Raise e -> e = IndexError.
Proof.
  revert v; induction tf_scores as [|[token tf] tfs IH]; intros v.
  - discriminate.
  - unfold fill in *; simpl.
    destruct (dict_get (vocabulary m) token) as [idx|]; [|apply IH].
    destruct (list_setitem v idx _) as [v'|e'] eqn:E; [apply IH|].
    apply list_setitem_error in E; subst.
    fold (fill m tfs (Raise IndexError)); rewrite fill_Raise; now intros [= <-].
Qed.

Lemma transform_fitted (m : SimpleEmbeddings) (text : str) :
  fitted m = true ->
  exists tf, _compute_tf (_tokenize text) = Ok tf /\
    transform m text = fill m tf (Ok (repeat 0%float (length (vocabulary m)))).
Proof.
  intros Hf; unfold transform; rewrite Hf; simpl.
  destruct (_compute_tf_Ok (_tokenize text)) as [tf Htf].
  exists tf; split; [exact Htf|]; rewrite Htf; reflexivity.
Qed.

(** On a fitted model whose columns are in range, [transform] returns a
    vector with one entry per column. *)
Lemma transform_Ok (m : SimpleEmbeddings) (text : str) :
  fitted m = true -> columns_in_range m ->
  exists v, transform m text = Ok v /\ length v = length (vocabulary m).
Proof.
  intros Hf Hm.
  destruct (transform_fitted m text Hf) as (tf & _ & ->).
  apply fill_Ok; [exact Hm|apply repeat_length].
Qed.

Lemma transform_no_tokens (m : SimpleEmbeddings) (text : str) :
  fitted m = true -> _tokenize text = [] ->
  transform m text = Ok (repeat 0%float (length (vocabulary m))).
Proof.
  intros Hf Ht; unfold transform; rewrite Hf, Ht; reflexivity.
Qed.

(** C8.  [transform] raises the error of an unfitted model exactly when the
    model is not fitted, which is the state of a new model; every call of
    [fit] returns a fitted model on which [transform] succeeds for every
    text, with a vector of the length of the vocabulary; and a text without
    tokens gives the all-zero vector of that length, no division by zero. *)
Theorem transform_raises_iff_unfitted :
  (forall m text, transform m text = Raise unfitted_error <-> fitted m = false) /\
  fitted new_model = false /\
  (forall self documents,
     exists m, fit self documents = Ok m /\ fitted m = true /\
       forall text,
         (exists v, transform m text = Ok v /\ length v = length (vocabulary m)) /\
         (_tokenize text = [] ->
          transform m text = Ok (repeat 0%float (length (vocabulary m))))).
Proof.
  split; [|split; [reflexivity|]].
  - intros m text; split.
    + destruct (fitted m) eqn:Hf; [|reflexivity].
      destruct (transform_fitted m text Hf) as (tf & _ & ->).
      intros Hr; apply fill_error in Hr; discriminate.
    + intros Hf; unfold transform; rewrite Hf; reflexivity.
  - intros self documents.
    destruct (fit_Ok self documents) as (m & Hfit & Hf & Hm & _).
    exists m; repeat split; auto.
    + apply transform_Ok; assumption.
    + apply transform_no_tokens; assumption.
Qed.

End WithRuntime.

(** An instance: fitted on one sentence of seven words, the model has seven
    columns, and a text of punctuation only transforms to seven zeros. *)
Example transform_punctuation_only :
  exists m,
    @fit (last_occurrence_runtime (fun x => x)) new_model
         [lit "Firewalls block attacks. Passwords must be encrypted."] = Ok m /\
    transform m (lit "?! ...") = Ok (repeat 0%float 7) /\
    transform new_model (lit "?! ...") = Raise unfitted_error.
Proof. eexists; repeat split; vm_compute; reflexivity. Qed.

End ModelFacts.

(** ** The order of doubles *)

Module FloatOrder.

(** [SFcompare] on two doubles that are not NaN is the comparison of their
    keys. *)
Lemma SFcompare_key (a b : spec_float) :
  a <> S754_nan -> b <> S754_nan ->
  match SFcompare a b with
  | Some Lt => key_lt (key a) (key b)
  | Some Eq => key a = key b
  | Some Gt => key_lt (key b) (key a)
  | None => False
  end.
Proof.
  intros Ha Hb.
  destruct a as [[]|[]| |[] m1 e1]; destruct b as [[]|[]| |[] m2 e2];
    try contradiction; unfold key_lt; cbn -[Z.compare Pos.compare_cont];
    try reflexivity; try lia;
    change (Pos.compare_cont Eq m1 m2) with (Pos.compare m1 m2);
    destruct (Z.compare_spec e1 e2); destruct (Pos.compare_spec m1 m2);
    cbn; subst; try reflexivity; lia.
Qed.

Lemma key_lt_irrefl (a : Z * (Z * Z)) : ~ key_lt a a.
Proof. unfold key_lt; lia. Qed.

Lemma key_lt_asym (a b : Z * (Z * Z)) : key_lt a b -> ~ key_lt b a.
Proof. unfold key_lt; lia. Qed.

Lemma key_lt_trans (a b c : Z * (Z * Z)) : key_lt a b -> key_lt b c -> key_lt a c.
Proof. unfold key_lt; lia. Qed.

Lemma key_lt_total (a b : Z * (Z * Z)) : key_lt a b \/ a = b \/ key_lt b a.
Proof.
  destruct a as [a1 [a2 a3]], b as [b1 [b2 b3]]; unfold key_lt; simpl.
  destruct (Z.lt_total a1 b1) as [|[|]]; [lia| |lia].
  destruct (Z.lt_total a2 b2) as [|[|]]; [lia| |lia].
  destruct (Z.lt_total a3 b3) as [|[|]]; [lia| |lia].
  subst; auto.
Qed.

Lemma ltb_key (x y : float) :
  comparable x -> comparable y ->
  ((x <? y)%float = true <-> key_lt (fkey x) (fkey y)).
Proof.
  intros Hx Hy; rewrite FloatAxioms.ltb_spec; unfold SFltb, fkey.
  pose proof (SFcompare_key _ _ Hx Hy) as H.
  destruct (SFcompare (Prim2SF x) (Prim2SF y)) as [[]|]; split; intros H'; auto;
    try discriminate; try contradiction.
  - rewrite H in H'; now apply key_lt_irrefl in H'.
  - now apply key_lt_asym in H'.
Qed.

Lemma eqb_key (x y : float) :
  comparable x -> comparable y ->
  ((x =? y)%float = true <-> fkey x = fkey y).
Proof.
  intros Hx Hy; rewrite FloatAxioms.eqb_spec; unfold SFeqb, fkey.
  pose proof (SFcompare_key _ _ Hx Hy) as H.
  destruct (SFcompare (Prim2SF x) (Prim2SF y)) as [[]|]; split; intros H'; auto;
    try discriminate; try contradiction.
  - rewrite H' in H; now apply key_lt_irrefl in H.
  - rewrite H' in H; now apply key_lt_irrefl in H.
Qed.

(** The comparison of tuples that the sort uses is the order of the keys,
    then of the row ids. *)
Lemma tuple_lt_before (a b : float * nat) :
  comparable (fst a) -> comparable (fst b) ->
  (tuple_lt a b = true <-> tuple_before a b).
Proof.
  intros Ha Hb; unfold tuple_lt, tuple_before.
  pose proof (eqb_key _ _ Ha Hb) as He.
  pose proof (ltb_key _ _ Ha Hb) as Hl.
  destruct (fst a =? fst b)%float.
  - rewrite Nat.ltb_lt; split.
    + intros H; right; split; [now apply He|exact H].
    + intros [H|[_ H]]; [|exact H].
      replace (fkey (fst a)) with (fkey (fst b)) in H by (symmetry; now apply He).
      now apply key_lt_irrefl in H.
  - rewrite Hl; split; [auto|].
    intros [H|[H _]]; [exact H|].
    apply He in H; discriminate.
Qed.

Lemma tuple_before_trans (a b c : float * nat) :
  tuple_before a b -> tuple_before b c -> tuple_before a c.
Proof.
  unfold tuple_before; intros [H1|[H1 H1']] [H2|[H2 H2']].
  - left; eapply key_lt_trans; eauto.
  - left; now rewrite <- H2.
  - left; now rewrite H1.
  - right; split; [congruence|lia].
Qed.

Lemma tuple_before_total (a b : float * nat) :
  snd a <> snd b -> tuple_before a b \/ tuple_before b a.
Proof.
  unfold tuple_before; intros Hne.
  destruct (key_lt_total (fkey (fst a)) (fkey (fst b))) as [H|[H|H]]; auto.
  destruct (Nat.lt_total (snd a) (snd b)) as [|[|]]; [auto|contradiction|auto].
Qed.

(** Read backwards, the order of the keys is the order in which the code
    ranks: higher similarity first, then higher row id. *)
Lemma tuple_before_ranked (a b : float * nat) :
  comparable (fst a) -> comparable (fst b) ->
  tuple_before b a -> ranked_before a b.
Proof.
  intros Ha Hb [H|[H H']]; unfold ranked_before.
  - left; now apply ltb_key.
  - right; split; [apply eqb_key; auto|exact H'].
Qed.

Lemma is_nan_comparable (x : float) : is_nan x = false -> comparable x.
Proof.
  unfold is_nan, comparable; rewrite FloatAxioms.eqb_spec; unfold SFeqb.
  intros H Hn; rewrite Hn in H; discriminate.
Qed.

End FloatOrder.
Import FloatOrder.

(** ** The sort of similarity_search *)

Module SortFacts.

Lemma insert_sorted_perm (x : float * nat) (l : list (float * nat)) :
  Permutation (x :: l) (insert_sorted x l).
Proof.
  induction l as [|y l IH]; simpl; [reflexivity|].
  destruct (tuple_lt x y); [reflexivity|].
  rewrite perm_swap; now constructor.
Qed.

Lemma fold_insert_perm (l acc : list (float * nat)) :
  Permutation (l ++ acc) (fold_left (fun acc x => insert_sorted x acc) l acc).
Proof.
  revert acc; induction l as [|x l IH]; simpl; intros acc; [reflexivity|].
  rewrite <- IH, <- insert_sorted_perm; apply Permutation_middle.
Qed.

Lemma sort_ascending_perm (l : list (float * nat)) : Permutation l (sort_ascending l).
Proof.
  unfold sort_ascending; rewrite <- fold_insert_perm; now rewrite app_nil_r.
Qed.

Lemma sort_reverse_perm (l : list (float * nat)) : Permutation l (sort_reverse l).
Proof.
  unfold sort_reverse.
  rewrite <- Permutation_rev, <- sort_ascending_perm; apply Permutation_rev.
Qed.

Lemma sort_reverse_length (l : list (float * nat)) : length (sort_reverse l) = length l.
Proof. symmetry; apply Permutation_length, sort_reverse_perm. Qed.

Lemma insert_sorted_sorted (x : float * nat) (l : list (float * nat)) :
  comparable (fst x) -> all_comparable l ->
  ~ In (snd x) (map snd l) ->
  StronglySorted tuple_before l ->
  StronglySorted tuple_before (insert_sorted x l).
Proof.
  intros Hx; induction l as [|y l IH]; simpl; intros Hl Hfresh Hs.
  - repeat constructor.
  - inversion Hl as [|? ? Hy Hl']; subst.
    inversion Hs as [|? ? Hs' Hyl]; subst.
    destruct (tuple_lt x y) eqn:E.
    + apply tuple_lt_before in E; auto.
      constructor; [exact Hs|].
      constructor; [exact E|].
      eapply Forall_impl; [|exact Hyl].
      intros z Hz; eapply tuple_before_trans; eauto.
    + assert (Hyx : tuple_before y x).
      { destruct (tuple_before_total x y) as [H|H];
          [intros Heq; apply Hfresh; left; now rewrite Heq| |exact H].
        apply tuple_lt_before in H; auto; congruence. }
      constructor; [apply IH; auto|].
      eapply Permutation_Forall; [apply insert_sorted_perm|].
      constructor; assumption.
Qed.

Lemma fold_insert_sorted (l acc : list (float * nat)) :
  all_comparable l -> all_comparable acc ->
  NoDup (map snd (l ++ acc)) ->
  StronglySorted tuple_before acc ->
  StronglySorted tuple_before (fold_left (fun acc x => insert_sorted x acc) l acc).
Proof.
  revert acc; induction l as [|x l IH]; simpl; intros acc Hl Hacc Hnd Hs; [exact Hs|].
  inversion Hl; subst; inversion Hnd as [|? ? Hx Hnd']; subst.
  rewrite map_app, in_app_iff in Hx.
  apply IH; auto.
  - eapply Permutation_Forall; [apply insert_sorted_perm|]; constructor; auto.
  - eapply Permutation_NoDup; [|exact Hnd].
    change (snd x :: map snd (l ++ acc)) with (map snd (x :: l ++ acc)).
    apply Permutation_map.
    rewrite <- insert_sorted_perm; apply Permutation_middle.
  - apply insert_sorted_sorted; auto.
Qed.

Lemma sort_ascending_sorted (l : list (float * nat)) :
  all_comparable l -> NoDup (map snd l) ->
  StronglySorted tuple_before (sort_ascending l).
Proof.
  intros Hl Hnd; apply fold_insert_sorted; auto.
  - constructor.
  - now rewrite app_nil_r.
  - constructor.
Qed.

Lemma StronglySorted_snoc {A} (R : A -> A -> Prop) (l : list A) (x : A) :
  StronglySorted R l -> Forall (fun y => R y x) l -> StronglySorted R (l ++ [x]).
Proof.
  induction 1 as [|a l Hs IH Ha]; simpl; intros Hx.
  - repeat constructor.
  - inversion Hx; subst; constructor; [auto|].
    apply Forall_app; split; auto.
Qed.

Lemma StronglySorted_rev {A} (R : A -> A -> Prop) (l : list A) :
  StronglySorted R l -> StronglySorted (fun a b => R b a) (rev l).
Proof.
  induction 1 as [|a l Hs IH Ha]; simpl; [constructor|].
  apply StronglySorted_snoc; [exact IH|].
  apply Forall_rev; exact Ha.
Qed.

Lemma StronglySorted_weaken {A} (R R' : A -> A -> Prop) (l : list A) :
  (forall a b, In a l -> In b l -> R a b -> R' a b) ->
  StronglySorted R l -> StronglySorted R' l.
Proof.
  intros HR Hs; induction Hs as [|a l Hs IH Ha]; constructor.
  - apply IH; intros; apply HR; simpl; auto.
  - rewrite Forall_forall in *; intros b Hb; apply HR; simpl; auto.
Qed.

Lemma firstn_In {A} (n : nat) (l : list A) (x : A) : In x (firstn n l) -> In x l.
Proof. intros H; rewrite <- (firstn_skipn n l); apply in_or_app; now left. Qed.

Lemma skipn_In {A} (n : nat) (l : list A) (x : A) : In x (skipn n l) -> In x l.
Proof. intros H; rewrite <- (firstn_skipn n l); apply in_or_app; now right. Qed.

Lemma StronglySorted_skipn {A} (R : A -> A -> Prop) (n : nat) (l : list A) :
  StronglySorted R l -> StronglySorted R (skipn n l).
Proof.
  revert l; induction n as [|n IH]; intros l Hs; [exact Hs|].
  destruct l as [|a l]; simpl; [constructor|].
  inversion Hs; subst; auto.
Qed.

Lemma StronglySorted_firstn {A} (R : A -> A -> Prop) (n : nat) (l : list A) :
  StronglySorted R l -> StronglySorted R (firstn n l).
Proof.
  revert l; induction n as [|n IH]; intros l Hs; [constructor|].
  destruct l as [|a l]; simpl; [constructor|].
  inversion Hs as [|? ? Hs' Ha]; subst; constructor; [auto|].
  rewrite Forall_forall in *; intros b Hb; apply Ha.
  eapply firstn_In; eauto.
Qed.

Lemma StronglySorted_slice {A} (R : A -> A -> Prop) (l : list A) (a b : Z) :
  StronglySorted R l -> StronglySorted R (slice l a b).
Proof.
  intros Hs; unfold slice; now apply StronglySorted_firstn, StronglySorted_skipn.
Qed.

Lemma slice_incl {A} (l : list A) (a b : Z) (x : A) : In x (slice l a b) -> In x l.
Proof.
  unfold slice; intros H; apply firstn_In in H; eapply skipn_In; eauto.
Qed.

(** The sort of the code puts comparable similarities in ranking order. *)
Lemma sort_reverse_ranked (l : list (float * nat)) :
  all_comparable l -> NoDup (map snd l) ->
  StronglySorted ranked_before (sort_reverse l).
Proof.
  intros Hl Hnd; unfold sort_reverse.
  assert (Hrev : all_comparable (rev l)) by now apply Forall_rev.
  assert (Hall : forall a, In a (rev (sort_ascending (rev l))) -> comparable (fst a)).
  { intros a Ha; apply in_rev in Ha.
    assert (Hs : all_comparable (sort_ascending (rev l)))
      by (eapply Permutation_Forall; [apply sort_ascending_perm|exact Hrev]).
    unfold all_comparable in Hs; rewrite Forall_forall in Hs; now apply Hs. }
  apply StronglySorted_weaken with (R := fun a b => tuple_before b a).
  - intros a b Ha Hb; apply tuple_before_ranked; auto.
  - apply StronglySorted_rev, sort_ascending_sorted; [exact Hrev|].
    rewrite map_rev; eapply Permutation_NoDup; [apply Permutation_rev|exact Hnd].
Qed.

End SortFacts.
Import SortFacts.

(** ** VectorStore *)

Module StoreFacts.
Import ModelFacts.

Lemma enumerate_fst {A} (l : list A) (i : nat) :
  map fst (enumerate i l) = seq i (length l).
Proof. revert i; induction l; simpl; intros; f_equal; auto. Qed.

Lemma similarities_rows (query_vector : list float) (vs : list (list float)) :
  map snd (similarities query_vector vs) = seq 0 (length vs).
Proof.
  unfold similarities; rewrite map_map; simpl; apply enumerate_fst.
Qed.

Lemma similarities_length (query_vector : list float) (vs : list (list float)) :
  length (similarities query_vector vs) = length vs.
Proof. unfold similarities; now rewrite length_map, enumerate_length. Qed.

Lemma similarities_comparable (query_vector : list float) (vs : list (list float)) :
  (forall v, In v vs -> is_nan (_cosine_similarity query_vector v) = false) ->
  all_comparable (similarities query_vector vs).
Proof.
  intros H; unfold all_comparable, similarities.
  apply Forall_forall; intros x Hx.
  apply in_map_iff in Hx as ([i v] & <- & Hin); simpl.
  apply is_nan_comparable, H.
  apply enumerate_In in Hin as [_ Hin]; eapply nth_error_In; eauto.
Qed.

(** The ranked rows are rows of the store. *)
Lemma ranking_rows (query_vector : list float) (vs : list (list float)) (k : Z)
    (si : float * nat) :
  In si (ranking query_vector vs k) -> (snd si < length vs)%nat.
Proof.
  unfold ranking, slice_to; intros H; apply slice_incl in H.
  eapply Permutation_in in H; [|symmetry; apply sort_reverse_perm].
  apply (in_map snd) in H; rewrite similarities_rows in H.
  apply in_seq in H; lia.
Qed.

Lemma ranking_sorted (query_vector : list float) (vs : list (list float)) (k : Z) :
  (forall v, In v vs -> is_nan (_cosine_similarity query_vector v) = false) ->
  StronglySorted ranked_before (ranking query_vector vs k).
Proof.
  intros H; unfold ranking, slice_to.
  apply StronglySorted_slice, sort_reverse_ranked.
  - now apply similarities_comparable.
  - rewrite similarities_rows; apply seq_NoDup.
Qed.

Lemma ranking_length (query_vector : list float) (vs : list (list float)) (k : Z) :
  (length (ranking query_vector vs k) <= length vs)%nat /\
  (0 <= k -> len (ranking query_vector vs k) <= k).
Proof.
  unfold ranking; split.
  - unfold slice_to; etransitivity; [apply slice_length_le|].
    now rewrite sort_reverse_length, similarities_length.
  - intros Hk; rewrite slice_to_nonneg by assumption.
    unfold len; rewrite length_firstn; lia.
Qed.

(** With a negative [k] the slice drops the last [-k] ranked rows and keeps
    the others. *)
Lemma ranking_negative_k (query_vector : list float) (vs : list (list float)) (k : Z) :
  k < 0 ->
  length (ranking query_vector vs k) = (length vs - Z.to_nat (- k))%nat.
Proof.
  intros Hk; unfold ranking; rewrite slice_to_neg by assumption.
  rewrite length_firstn, sort_reverse_length, similarities_length; lia.
Qed.

(** C1, as the code has it.  When the query transforms to a vector, every
    row has its chunk and no similarity is NaN, [similarity_search] returns
    the chunks of the ranked rows, each with its similarity, and the ranked
    rows are in descending order of similarity; two rows with equal
    similarity come with the higher row id (the later insertion) first. *)
Theorem search_sorted_ties_by_higher_row
    (self : VectorStore) (query : str) (k : Z) (query_vector : list float) :
  transform (embeddings_model self) query = Ok query_vector ->
  (length (vectors self) <= length (metadata self))%nat ->
  (forall v, In v (vectors self) ->
             is_nan (_cosine_similarity query_vector v) = false) ->
  StronglySorted ranked_before (ranking query_vector (vectors self) k) /\
  similarity_search self query k =
    Ok (map (fun si => scored (nth (snd si) (metadata self) []) (fst si))
            (ranking query_vector (vectors self) k)).
Proof.
  intros Ht Hmd Hnan; split; [now apply ranking_sorted|].
  unfold similarity_search.
  destruct (vectors self) as [|v vs] eqn:Ev.
  { pose proof (proj1 (ranking_length query_vector [] k)) as Hlen.
    destruct (ranking query_vector [] k); [reflexivity|simpl in Hlen; lia]. }
  cbn [truthy negb]; rewrite Ht; cbn [bind].
  apply mapM_Ok; intros si Hsi.
  apply ranking_rows in Hsi.
  unfold result_entry, scored.
  destruct (nth_error (metadata self) (snd si)) as [d|] eqn:E.
  - now rewrite (nth_error_nth _ _ _ E).
  - apply nth_error_None in E; lia.
Qed.

Lemma search_sorted_ties_by_higher_row_witness :
  StronglySorted ranked_before
    (ranking [idf_a; 0%float] (vectors three_store) 3) /\
  similarity_search three_store (lit "a") 3 =
    Ok (map (fun si => scored (nth (snd si) (metadata three_store) []) (fst si))
            (ranking [idf_a; 0%float] (vectors three_store) 3)).
Proof.
  apply (search_sorted_ties_by_higher_row three_store (lit "a") 3 [idf_a; 0%float]).
  - reflexivity.
  - simpl; lia.
  - intros v [<-|[<-|[<-|[]]]]; reflexivity.
Defined.

(** C1, as the claim words it, fails on the store of the chunks "a", "a",
    "b" and the query "a": rows 0 and 1 have the same similarity 1.0 and
    row 1 is returned before row 0. *)
Lemma search_ties_not_by_insertion :
  similarity_search three_store (lit "a") 3 =
    Ok [ scored (chunk "a" "notes.txt" 1) 1%float;
         scored (chunk "a" "notes.txt" 0) 1%float;
         scored (chunk "b" "notes.txt" 2) 0%float ] /\
  ranking [idf_a; 0%float] (vectors three_store) 3 =
    [ (1%float, 1%nat); (1%float, 0%nat); (0%float, 2%nat) ] /\
  ~ StronglySorted ranked_before_by_insertion
      (ranking [idf_a; 0%float] (vectors three_store) 3).
Proof.
  split; [vm_compute; reflexivity|].
  assert (Hr : ranking [idf_a; 0%float] (vectors three_store) 3 =
               [ (1%float, 1%nat); (1%float, 0%nat); (0%float, 2%nat) ])
    by (vm_compute; reflexivity).
  split; [exact Hr|].
  rewrite Hr; intros Hs.
  inversion Hs as [|? ? _ Hall]; subst.
  inversion Hall as [|? ? [H|[_ H]] _]; subst; simpl in H.
  - vm_compute in H; discriminate.
  - lia.
Qed.

(** The parts of C4 that hold: an empty index gives the empty list for
    every [k]; the result is never longer than the index, and for [k >= 0]
    never longer than [k]. *)
Lemma search_empty_index (self : VectorStore) (query : str) (k : Z) :
  vectors self = [] -> similarity_search self query k = Ok [].
Proof. intros H; unfold similarity_search; now rewrite H. Qed.

Lemma search_length (self : VectorStore) (query : str) (k : Z) (results : list doc) :
  similarity_search self query k = Ok results ->
  (length results <= length (vectors self))%nat /\
  (0 <= k -> len results <= k).
Proof.
  unfold similarity_search.
  destruct (vectors self) as [|v vs] eqn:Ev.
  - intros [= <-]; unfold len; simpl; split; lia.
  - cbn [truthy negb]; intros H.
    apply bind_Ok in H as (qv & _ & H); apply mapM_length in H.
    unfold len; rewrite H; apply ranking_length.
Qed.

(** C4 (the code departs from the claim).  With [k = -1] the slice
    [similarities[:k]] drops the last ranked row and keeps the others: on
    the store of three chunks the search returns two results, where the
    claim has at most [max(k, 0) = 0]. *)
Theorem search_negative_k_returns_rows :
  similarity_search three_store (lit "a") (-1) =
    Ok [ scored (chunk "a" "notes.txt" 1) 1%float;
         scored (chunk "a" "notes.txt" 0) 1%float ] /\
  Z.max (-1) 0 = 0.
Proof. split; vm_compute; reflexivity. Qed.

(** *** add_documents *)

Section WithRuntime.
Context `{Runtime}.

Lemma mapM_Forall {A B} (f : A -> result B) (P : B -> Prop) (l : list A) :
  (forall x, exists y, f x = Ok y /\ P y) ->
  exists ys, mapM f l = Ok ys /\ length ys = length l /\ Forall P ys.
Proof.
  intros Hf; induction l as [|x l (ys & Hys & Hlen & HP)]; simpl.
  - exists []; auto.
  - destruct (Hf x) as (y & -> & Hy); rewrite Hys; simpl.
    exists (y :: ys); simpl; auto.
Qed.

(** [fit_transform] returns the fitted model and one vector per document,
    each as long as the vocabulary of that model. *)
Lemma fit_transform_Ok (self : SimpleEmbeddings) (documents : list str) :
  exists m vs,
    fit_transform self documents = Ok (m, vs) /\
    fit self documents = Ok m /\
    length vs = length documents /\
    Forall (fun v => length v = length (vocabulary m)) vs.
Proof.
  destruct (fit_Ok self documents) as (m & Hfit & Hf & Hm & _).
  destruct (mapM_Forall (transform m) (fun v => length v = length (vocabulary m)) documents)
    as (vs & Hvs & Hlen & Hall).
  { intros text; now apply transform_Ok. }
  exists m, vs; unfold fit_transform; rewrite Hfit; simpl; rewrite Hvs; auto.
Qed.

(** One call of [add_documents] on chunks with a text: the model is fitted
    anew on the texts of this call alone, the vectors of this call have the
    length of the new vocabulary, and the vectors already in the store stay
    as they are. *)
Lemma add_documents_Ok (self : VectorStore) (documents : list doc) (texts : list str) :
  doc_texts documents = Ok texts ->
  exists m vs,
    add_documents self documents =
      Ok {| vectors := vectors self ++ vs;
            metadata := metadata self ++ documents;
            embeddings_model := m |} /\
    fit (embeddings_model self) texts = Ok m /\
    length vs = length documents /\
    Forall (fun v => length v = length (vocabulary m)) vs.
Proof.
  intros Ht; unfold add_documents; rewrite Ht; simpl.
  destruct (fit_transform_Ok (embeddings_model self) texts) as (m & vs & -> & Hfit & Hlen & Hall).
  exists m, vs; simpl; repeat split; auto.
  unfold doc_texts in Ht; apply bind_Ok in Ht as (values & Hvalues & Ht).
  apply mapM_length in Ht; apply mapM_length in Hvalues.
  rewrite Hlen, Ht; exact Hvalues.
Qed.

(** On a new store the invariant of C5 holds after the first call. *)
Lemma add_documents_new_store (documents : list doc) (texts : list str) :
  doc_texts documents = Ok texts ->
  exists s,
    add_documents new_store documents = Ok s /\
    Forall (fun v => length v = length (vocabulary (embeddings_model s))) (vectors s).
Proof.
  intros Ht.
  destruct (add_documents_Ok new_store documents texts Ht) as (m & vs & Hadd & _ & _ & Hall).
  eexists; split; [exact Hadd|exact Hall].
Qed.

(** A store built by one call on a new store has a chunk for every row,
    and its model transforms every query. *)
Lemma add_documents_new_store_searchable (documents : list doc) (texts : list str) :
  doc_texts documents = Ok texts ->
  exists s,
    add_documents new_store documents = Ok s /\
    length (metadata s) = length (vectors s) /\
    forall query, exists query_vector,
      transform (embeddings_model s) query = Ok query_vector.
Proof.
  intros Ht.
  destruct (add_documents_Ok new_store documents texts Ht) as (m & vs & Hadd & Hfit & Hlen & _).
  eexists; split; [exact Hadd|]; simpl; split; [now symmetry|].
  intros query.
  destruct (fit_Ok (embeddings_model new_store) texts) as (m' & Hfit' & Hf & Hm & _).
  rewrite Hfit in Hfit'; injection Hfit' as <-.
  destruct (transform_Ok m query Hf Hm) as (v & Hv & _); eauto.
Qed.

(** C5 (the code departs from the claim).  A second call of
    [add_documents] fits the model again, on the new texts only, and appends
    to the vectors of the first call: after the chunks "alpha" and then
    "beta gamma" the store holds a vector of length 1 next to one of
    length 2, under a vocabulary of size 2. *)
Theorem add_documents_twice_mixes_fits :
  exists s1 s2,
    add_documents new_store [chunk "alpha" "a.txt" 0] = Ok s1 /\
    add_documents s1 [chunk "beta gamma" "b.txt" 0] = Ok s2 /\
    map (@length float) (vectors s2) = [1%nat; 2%nat] /\
    length (vocabulary (embeddings_model s2)) = 2%nat.
Proof.
  destruct (add_documents_Ok new_store [chunk "alpha" "a.txt" 0] [lit "alpha"] eq_refl)
    as (m1 & vs1 & Hadd1 & Hfit1 & Hlen1 & Hall1).
  destruct (fit_Ok (embeddings_model new_store) [lit "alpha"]) as (m1' & Hfit1' & _ & _ & Hv1).
  rewrite Hfit1 in Hfit1'; injection Hfit1' as <-.
  change (concat (map _tokenize [lit "alpha"])) with [lit "alpha"] in Hv1.
  rewrite set_list_length_NoDup in Hv1 by (repeat constructor; simpl; tauto).
  set (s1 := {| vectors := vectors new_store ++ vs1;
                metadata := metadata new_store ++ [chunk "alpha" "a.txt" 0];
                embeddings_model := m1 |}) in *.
  destruct (add_documents_Ok s1 [chunk "beta gamma" "b.txt" 0] [lit "beta gamma"] eq_refl)
    as (m2 & vs2 & Hadd2 & Hfit2 & Hlen2 & Hall2).
  destruct (fit_Ok (embeddings_model s1) [lit "beta gamma"]) as (m2' & Hfit2' & _ & _ & Hv2).
  rewrite Hfit2 in Hfit2'; injection Hfit2' as <-.
  change (concat (map _tokenize [lit "beta gamma"])) with [lit "beta"; lit "gamma"] in Hv2.
  rewrite set_list_length_NoDup in Hv2.
  2:{ repeat constructor; simpl; [|tauto]. intros [Hbg|[]]; discriminate. }
  exists s1; eexists; split; [exact Hadd1|]; split; [exact Hadd2|].
  simpl in *.
  destruct vs1 as [|v1 [|? ?]]; try discriminate.
  destruct vs2 as [|v2 [|? ?]]; try discriminate.
  inversion Hall1; inversion Hall2; subst; simpl.
  split; [|assumption]; congruence.
Qed.

End WithRuntime.

(** *** save and load *)

Section WithPickle.
Context `{Pickle store_data}.

Lemma dict_get_set {V} (d : dict V) (k : str) (v : V) :
  dict_get (dict_set d k v) k = Some v.
Proof.
  induction d as [|[k' v'] d IH]; simpl.
  - now rewrite str_eqb_refl.
  - destruct (str_eqb k' k) eqn:E; simpl; now rewrite E.
Qed.

(** C6.  Whatever store [load] is called on, loading the file that [save]
    wrote gives back the saved store, attribute by attribute (vectors,
    chunks, vocabulary, IDF table, fitted flag), and so every search on the
    loaded store returns what it returned on the saved one. *)
Theorem load_save_roundtrip (self other : VectorStore) (filepath : str) (fs : files) :
  load other filepath (save self filepath fs) = Ok self /\
  forall loaded, load other filepath (save self filepath fs) = Ok loaded ->
    vectors loaded = vectors self /\
    metadata loaded = metadata self /\
    vocabulary (embeddings_model loaded) = vocabulary (embeddings_model self) /\
    idf_scores (embeddings_model loaded) = idf_scores (embeddings_model self) /\
    fitted (embeddings_model loaded) = fitted (embeddings_model self) /\
    forall query k, similarity_search loaded query k = similarity_search self query k.
Proof.
  assert (Hload : load other filepath (save self filepath fs) = Ok self).
  { unfold load, save; rewrite dict_get_set, pickle_load_dump; simpl.
    destruct self as [vs md [voc idf fit]]; reflexivity. }
  split; [exact Hload|].
  intros loaded Hl; rewrite Hload in Hl; injection Hl as <-.
  repeat split; reflexivity.
Qed.

End WithPickle.

(** The store of the examples is the one that [add_documents] builds from
    the three chunks. *)
Example three_store_built :
  @add_documents (last_occurrence_runtime log_table) new_store three_chunks
    = Ok three_store.
Proof. vm_compute; reflexivity. Qed.

(** An instance: the store of three chunks, saved and loaded into a new
    store. *)
Example load_save_three_store :
  load new_store (lit "vector_store.pkl")
       (save three_store (lit "vector_store.pkl") []) = Ok three_store /\
  load new_store (lit "missing.pkl")
       (save three_store (lit "vector_store.pkl") []) =
    Raise (FileNotFoundError (lit "missing.pkl")).
Proof. split; reflexivity. Qed.

End StoreFacts.

(** ** RoleFilter.filter_documents *)

Module FilterDocumentsFacts.

Lemma fold_append_filter {A} (p : A -> bool) (l acc : list A) :
  fold_left (fun acc x => if p x then acc ++ [x] else acc) l acc = acc ++ filter p l.
Proof.
  revert acc; induction l as [|x l IH]; simpl; intros acc.
  - now rewrite app_nil_r.
  - rewrite IH; destruct (p x); [now rewrite <- app_assoc|reflexivity].
Qed.

Lemma effective_role_normalize (user_role : str) :
  effective_role user_role = normalize_role user_role.
Proof.
  unfold effective_role, normalize_role, least_privileged_role.
  now destruct (dict_mem role_permissions user_role).
Qed.

(** After the remapping the role is always in the permission table. *)
Lemma effective_role_known (user_role : str) :
  exists perms, dict_get role_permissions (effective_role user_role) = Some perms.
Proof.
  unfold effective_role, dict_mem.
  destruct (dict_get role_permissions user_role) as [perms|] eqn:E; simpl.
  - eauto.
  - eexists; reflexivity.
Qed.

Lemma allowed_roles_allow_list (d : doc) : allowed_roles d = allow_list d.
Proof.
  unfold allowed_roles, allow_list, dict_get_default.
  destruct (dict_get d (lit "source")) as [[source| | |]|]; reflexivity.
Qed.

(** C9.  [filter_documents] never raises and computes [filterChunks]: the
    role is first remapped to "public" when it is not in the permission
    table; a role that sees all documents gets the input list as it is; any
    other role gets, in the order of the input, exactly the chunks whose
    source's allow-list (every role, when the source has no entry in the
    restriction table) contains the role. *)
Theorem filter_documents_filterChunks (documents : list doc) (user_role : str) :
  filter_documents documents user_role = Ok (filterChunks documents user_role).
Proof.
  unfold filter_documents, filterChunks, canSeeAllDocuments, dict_item.
  rewrite <- effective_role_normalize.
  destruct (effective_role_known user_role) as [perms ->]; simpl.
  destruct (all_documents perms); [reflexivity|].
  rewrite fold_append_filter; simpl; f_equal.
  apply filter_ext; intros d; now rewrite allowed_roles_allow_list.
Qed.

(** The remapping named in C9: an unknown role becomes the least-privileged
    role, a known role stays. *)
Lemma normalize_role_cases (role : str) :
  (dict_mem role_permissions role = false -> normalize_role role = lit "public") /\
  (dict_mem role_permissions role = true -> normalize_role role = role).
Proof. unfold normalize_role; destruct (dict_mem role_permissions role); split; auto; discriminate. Qed.

(** For a role that does not see all documents the result is a
    subsequence of the input that keeps a chunk iff the role is allowed. *)
Lemma filterChunks_kept (chunks : list doc) (role : str) (chunk : doc) :
  canSeeAllDocuments role = false ->
  (In chunk (filterChunks chunks role) <->
   In chunk chunks /\ list_mem (normalize_role role) (allow_list chunk) = true).
Proof.
  intros Hall; unfold filterChunks; rewrite Hall; apply filter_In.
Qed.

End FilterDocumentsFacts.

(** ** Substrings and str.replace *)

Module ReplaceFacts.

Lemma prefixb_spec (p s : str) : prefixb p s = true <-> exists t, s = p ++ t.
Proof.
  revert s; induction p as [|x p IH]; intros s; simpl.
  - split; [intros _; now exists s|reflexivity].
  - destruct s as [|y s].
    + split; [discriminate|intros [t Ht]; discriminate].
    + rewrite andb_true_iff, Ascii.eqb_eq, IH; split.
      * intros [-> [t ->]]; now exists t.
      * intros [t [= -> ->]]; split; [reflexivity|now exists t].
Qed.

Lemma prefixb_app (p t : str) : prefixb p (p ++ t) = true.
Proof. apply prefixb_spec; now exists t. Qed.

(** Two prefixes of one string: one is a prefix of the other. *)
Lemma prefixb_comparable (p v b : str) :
  prefixb p (v ++ b) = true -> prefixb p v = true \/ prefixb v p = true.
Proof.
  revert v; induction p as [|x p IH]; intros v H; [now left|].
  destruct v as [|y v]; [now right|].
  simpl in *; apply andb_true_iff in H as [Hxy H].
  rewrite Hxy; apply Ascii.eqb_eq in Hxy; subst; rewrite Ascii.eqb_refl; simpl.
  now apply IH.
Qed.

(** A prefix of [a ++ t] ends inside [a] or reaches into [t]. *)
Lemma prefixb_app_cases (p a t : str) :
  prefixb p (a ++ t) = true ->
  (exists a2, a = p ++ a2) \/
  (exists w, w <> [] /\ p = a ++ w /\ prefixb w t = true).
Proof.
  revert p; induction a as [|c a IH]; intros p H.
  - destruct p as [|x p]; [left; now exists []|].
    right; exists (x :: p); repeat split; [discriminate|exact H].
  - destruct p as [|x p]; [left; now exists (c :: a)|].
    simpl in H; apply andb_true_iff in H as [Hxc H].
    apply Ascii.eqb_eq in Hxc; subst.
    destruct (IH p H) as [[a2 ->]|(w & Hw & -> & Hpre)].
    + left; now exists a2.
    + right; now exists w.
Qed.

Lemma contains_occurs (k s : str) : contains k s = true <-> occurs_in k s.
Proof.
  split.
  - induction s as [|c s IH]; simpl; rewrite orb_true_iff.
    + intros [H|H]; [|discriminate].
      apply prefixb_spec in H as [t Ht].
      exists [], t; exact Ht.
    + intros [H|H].
      * apply prefixb_spec in H as [t Ht]; exists [], t; exact Ht.
      * destruct (IH H) as (a & b & ->); now exists (c :: a), b.
  - intros (a & b & ->); induction a as [|c a IH].
    + simpl; destruct (k ++ b) eqn:E; simpl; rewrite <- E, prefixb_app; reflexivity.
    + simpl; rewrite IH; apply orb_true_r.
Qed.

Lemma occurs_cons (k : str) (c : ascii) (s : str) :
  occurs_in k (c :: s) -> prefixb k (c :: s) = true \/ occurs_in k s.
Proof.
  intros ([|x a] & b & H).
  - left; apply prefixb_spec; now exists b.
  - right; injection H as _ ->; now exists a, b.
Qed.

Lemma occurs_app_r (k a s : str) : occurs_in k s -> occurs_in k (a ++ s).
Proof.
  intros (a' & b & ->); exists (a ++ a'), b; now rewrite <- app_assoc.
Qed.

Lemma occurs_prefix (k s : str) : prefixb k s = true -> occurs_in k s.
Proof. intros H; apply prefixb_spec in H as [t ->]; now exists [], t. Qed.

Lemma occurs_nil (k : str) : occurs_in k [] -> k = [].
Proof.
  intros (a & b & H); symmetry in H.
  apply app_eq_nil in H as [_ H]; now apply app_eq_nil in H as [H _].
Qed.

Lemma lower_occurs (k s : str) : occurs_in k s -> occurs_in (lower k) (lower s).
Proof.
  intros (a & b & ->); exists (lower a), (lower b); unfold lower.
  now rewrite !map_app.
Qed.

Lemma tails_In (a w : str) : w <> [] -> In w (tails (a ++ w)).
Proof.
  intros Hw; induction a as [|c a IH]; simpl; [|now right].
  destruct w; [contradiction|now left].
Qed.

Lemma no_shared_char_spec (u v : str) (c : ascii) :
  no_shared_char u v = true -> In c u -> In c v -> False.
Proof.
  unfold no_shared_char; rewrite forallb_forall; intros H Hu Hv.
  specialize (H c Hu); apply negb_true_iff in H.
  assert (existsb (Ascii.eqb c) v = true)
    by (apply existsb_exists; exists c; split; [exact Hv|apply Ascii.eqb_refl]).
  congruence.
Qed.

Lemma no_shared_char_tail (c : ascii) (u v : str) :
  no_shared_char (c :: u) v = true -> no_shared_char u v = true.
Proof. unfold no_shared_char; simpl; intros H; now apply andb_true_iff in H. Qed.

(** The scan, restarted after [n] skipped code points. *)
Lemma replace_scan_skip (old new : str) (n : nat) (s : str) :
  replace_scan old new n s = replace_scan old new 0 (skipn n s).
Proof.
  revert n; induction s as [|c s IH]; intros [|n]; try reflexivity.
  cbn [replace_scan skipn]; apply IH.
Qed.

Lemma replace_scan_match (old new rest : str) :
  old <> [] ->
  replace_scan old new 0 (old ++ rest) = new ++ replace_scan old new 0 rest.
Proof.
  intros Hold; destruct old as [|c old']; [contradiction|].
  change ((c :: old') ++ rest) with (c :: (old' ++ rest)).
  cbn [replace_scan].
  replace (prefixb (c :: old') (c :: old' ++ rest)) with true
    by (symmetry; apply (prefixb_app (c :: old') rest)).
  rewrite (replace_scan_skip _ _ (length (c :: old') - 1)); f_equal.
  replace (length (c :: old') - 1)%nat with (length old') by (simpl; lia).
  now rewrite skipn_app, skipn_all, Nat.sub_diag.
Qed.

Section Scan.
Variables old new : str.

Lemma replace_scan_nomatch (c : ascii) (s : str) :
  prefixb old (c :: s) = false ->
  replace_scan old new 0 (c :: s) = c :: replace_scan old new 0 s.
Proof. intros H; cbn [replace_scan]; now rewrite H. Qed.

(** Where no match of [old] can begin, the scan copies. *)
Lemma scan_through (u b : str) :
  apart_from old u = true ->
  replace_scan old new 0 (u ++ b) = u ++ replace_scan old new 0 b.
Proof.
  induction u as [|c u IH]; intros H; [reflexivity|].
  unfold apart_from in *; simpl in H; apply andb_true_iff in H as [Hc H].
  change ((c :: u) ++ b) with (c :: (u ++ b)).
  assert (E : prefixb old (c :: u ++ b) = false).
  { destruct (prefixb old (c :: u ++ b)) eqn:E; [|reflexivity].
    apply (prefixb_comparable old (c :: u) b) in E.
    unfold prefix_incomparable in Hc; apply andb_true_iff in Hc as [H1 H2].
    apply negb_true_iff in H1, H2; destruct E; congruence. }
  rewrite (replace_scan_nomatch _ _ E), (IH H); reflexivity.
Qed.

(** An occurrence of [k] that no match of [old] can touch is still there
    after the replacement. *)
Lemma replace_keeps (k s : str) :
  no_overlap old k = true -> old <> [] ->
  occurs_in k s -> occurs_in k (replace_scan old new 0 s).
Proof.
  intros Hno Hold (a & b & ->).
  unfold no_overlap in Hno; apply andb_true_iff in Hno as [Hok Hko].
  remember (length a) as n eqn:Hn.
  assert (Hle : (length a <= n)%nat) by lia; clear Hn.
  revert a Hle; induction n as [|n IH]; intros a Hle.
  - destruct a; [|simpl in Hle; lia]; simpl.
    rewrite scan_through by assumption; now exists [], (replace_scan old new 0 b).
  - destruct a as [|c a].
    { simpl; rewrite scan_through by assumption.
      now exists [], (replace_scan old new 0 b). }
    destruct (prefixb old ((c :: a) ++ k ++ b)) eqn:E.
    + destruct (prefixb_app_cases _ _ _ E) as [[a2 Ha]|(w & Hw & Hp & Hpre)].
      * rewrite Ha, <- app_assoc, replace_scan_match by assumption.
        apply occurs_app_r, IH.
        assert (length (c :: a) = length old + length a2)%nat
          by (rewrite Ha; apply length_app).
        destruct old; [contradiction|simpl in *; lia].
      * exfalso.
        assert (Hin : In w (tails old)) by (rewrite Hp; now apply tails_In).
        unfold apart_from in Hko; rewrite forallb_forall in Hko.
        specialize (Hko w Hin); unfold prefix_incomparable in Hko.
        apply andb_true_iff in Hko as [H1 H2]; apply negb_true_iff in H1, H2.
        apply prefixb_comparable in Hpre; destruct Hpre; congruence.
    + change ((c :: a) ++ k ++ b) with (c :: (a ++ k ++ b)) in *.
      rewrite replace_scan_nomatch by assumption.
      destruct (IH a) as (a' & b' & ->); [simpl in Hle; lia|].
      now exists (c :: a'), b'.
Qed.

(** Where [old] occurs, the result holds [new]. *)
Lemma replace_marks (s : str) :
  old <> [] -> occurs_in old s -> occurs_in new (replace_scan old new 0 s).
Proof.
  intros Hold (a & b & ->); induction a as [|c a IH].
  - simpl; rewrite replace_scan_match by assumption.
    now exists [], (replace_scan old new 0 b).
  - destruct (prefixb old ((c :: a) ++ old ++ b)) eqn:E.
    + apply prefixb_spec in E as [t ->].
      rewrite replace_scan_match by assumption.
      now exists [], (replace_scan old new 0 t).
    + change ((c :: a) ++ old ++ b) with (c :: (a ++ old ++ b)) in *.
      rewrite replace_scan_nomatch by assumption.
      destruct IH as (a' & b' & ->); now exists (c :: a'), b'.
Qed.

(** A prefix of the result that shares no code point with [new] was
    copied from the input. *)
Lemma prefix_of_scan (u t : str) :
  no_shared_char u new = true -> new <> [] -> old <> [] ->
  prefixb u (replace_scan old new 0 t) = true -> prefixb u t = true.
Proof.
  intros Hu Hnew Hold; revert t Hu; induction u as [|d u IH]; intros t Hu H;
    [reflexivity|].
  destruct t as [|c t]; [simpl in H; discriminate|].
  destruct (prefixb old (c :: t)) eqn:E.
  - exfalso; apply prefixb_spec in E as [r Hr]; rewrite Hr in H.
    rewrite replace_scan_match in H by assumption.
    destruct new as [|n0 new']; [contradiction|].
    simpl in H; apply andb_true_iff in H as [Hd _]; apply Ascii.eqb_eq in Hd; subst.
    apply (no_shared_char_spec _ _ n0 Hu); now left.
  - rewrite replace_scan_nomatch in H by assumption.
    simpl in *; apply andb_true_iff in H as [Hd H]; rewrite Hd; simpl.
    apply IH; [eapply no_shared_char_tail; eauto|exact H].
Qed.

Lemma occurs_after_new (k t : str) :
  no_shared_char k new = true -> k <> [] ->
  occurs_in k (new ++ t) -> occurs_in k t.
Proof.
  intros Hk Hne; induction new as [|n0 new' IH]; [auto|].
  intros H; simpl in H; apply occurs_cons in H as [H|H].
  - exfalso; destruct k as [|k0 k']; [contradiction|].
    simpl in H; apply andb_true_iff in H as [H _]; apply Ascii.eqb_eq in H; subst.
    apply (no_shared_char_spec _ _ n0 Hk); now left.
  - apply IH; [|exact H].
    unfold no_shared_char in *; rewrite forallb_forall in *; intros c Hc.
    specialize (Hk c Hc); simpl in Hk; apply negb_true_iff in Hk.
    apply orb_false_iff in Hk as [_ Hk]; now rewrite Hk.
Qed.

(** The replacement creates no occurrence of a string that shares no
    code point with [new]. *)
Lemma replace_creates_nothing (k s : str) :
  no_shared_char k new = true -> k <> [] -> new <> [] -> old <> [] ->
  occurs_in k (replace_scan old new 0 s) -> occurs_in k s.
Proof.
  intros Hk Hne Hnew Hold.
  remember (length s) as n eqn:Hn.
  assert (Hle : (length s <= n)%nat) by lia; clear Hn.
  revert s Hle; induction n as [|n IH]; intros s Hle H.
  - destruct s; [|simpl in Hle; lia].
    simpl in H; apply occurs_nil in H; contradiction.
  - destruct s as [|c s]; [simpl in H; apply occurs_nil in H; contradiction|].
    destruct (prefixb old (c :: s)) eqn:E.
    + apply prefixb_spec in E as [r Hr]; rewrite Hr in *.
      rewrite replace_scan_match in H by assumption.
      apply occurs_after_new in H; auto.
      apply occurs_app_r, IH; [|exact H].
      rewrite length_app in Hle; destruct old; [contradiction|simpl in *; lia].
    + rewrite replace_scan_nomatch in H by assumption.
      apply occurs_cons in H as [H|H].
      * apply occurs_prefix.
        destruct k as [|k0 k']; [contradiction|].
        simpl in *; apply andb_true_iff in H as [Hd H]; rewrite Hd; simpl.
        eapply prefix_of_scan; eauto using no_shared_char_tail.
      * destruct (IH s) as (a & b & ->); [simpl in Hle; lia|exact H|].
        now exists (c :: a), b.
Qed.

End Scan.

(** After the replacement of [k] by a string that shares no code point
    with it, [k] occurs nowhere. *)
Lemma replace_removes (k new s : str) :
  no_shared_char k new = true -> k <> [] -> new <> [] ->
  ~ occurs_in k (replace_scan k new 0 s).
Proof.
  intros Hk Hne Hnew.
  remember (length s) as n eqn:Hn.
  assert (Hle : (length s <= n)%nat) by lia; clear Hn.
  revert s Hle; induction n as [|n IH]; intros s Hle H.
  - destruct s; [|simpl in Hle; lia].
    simpl in H; apply occurs_nil in H; contradiction.
  - destruct s as [|c s]; [simpl in H; apply occurs_nil in H; contradiction|].
    destruct (prefixb k (c :: s)) eqn:E.
    + apply prefixb_spec in E as [r Hr]; rewrite Hr in *.
      rewrite replace_scan_match in H by assumption.
      apply occurs_after_new in H; auto.
      apply (IH r); [|exact H].
      rewrite length_app in Hle; destruct k; [contradiction|simpl in *; lia].
    + rewrite replace_scan_nomatch in H by assumption.
      apply occurs_cons in H as [H|H].
      * destruct k as [|k0 k']; [contradiction|].
        simpl in H; apply andb_true_iff in H as [Hd H].
        assert (H' : prefixb k' s = true).
        { apply (prefix_of_scan (k0 :: k') new); auto.
          eapply no_shared_char_tail; eauto. }
        simpl in E; rewrite Hd, H' in E; discriminate.
      * apply (IH s); [simpl in Hle; lia|exact H].
Qed.

End ReplaceFacts.
Import ReplaceFacts.

(** ** RoleFilter.filter_response *)

Module FilterResponseFacts.
Import FilterDocumentsFacts.

Lemma replace_nonempty (s old new : str) :
  old <> [] -> replace s old new = replace_scan old new 0 s.
Proof. destruct old; [contradiction|reflexivity]. Qed.

Lemma truthy_nonempty {A} (l : list A) : truthy l = true -> l <> [].
Proof. destruct l; [discriminate|discriminate]. Qed.

Lemma marker_nonempty (k : str) : restriction_marker k <> [].
Proof. discriminate. Qed.

Lemma redact_app (before after : list str) (s : str) :
  redact (before ++ after) s = redact after (redact before s).
Proof. apply fold_left_app. Qed.

Lemma redact_cons (k : str) (after : list str) (s : str) :
  redact (k :: after) s = redact after (redact_step s k).
Proof. reflexivity. Qed.

(** Keywords that cannot overlap an occurrence leave it in place. *)
Lemma redact_keeps (before : list str) (k t : str) :
  (forall ki, In ki before -> truthy ki = true /\ no_overlap ki k = true) ->
  occurs_in k t -> occurs_in k (redact before t).
Proof.
  revert t; induction before as [|ki before IH]; intros t Hb Ht; [exact Ht|].
  rewrite redact_cons; apply IH; [intros; apply Hb; now right|].
  destruct (Hb ki (or_introl eq_refl)) as [Hne Hno].
  unfold redact_step; destruct (contains _ _); [|exact Ht].
  rewrite replace_nonempty by now apply truthy_nonempty.
  apply replace_keeps; [exact Hno|now apply truthy_nonempty|exact Ht].
Qed.

(** Markers of other keywords do not spell the keyword. *)
Lemma redact_creates_nothing (after : list str) (k t : str) :
  truthy k = true ->
  (forall ki, In ki after ->
     truthy ki = true /\ no_shared_char k (restriction_marker ki) = true) ->
  occurs_in k (redact after t) -> occurs_in k t.
Proof.
  intros Hk; revert t; induction after as [|ki after IH]; intros t Ha Ht; [exact Ht|].
  rewrite redact_cons in Ht; apply IH in Ht; [|intros; apply Ha; now right].
  destruct (Ha ki (or_introl eq_refl)) as [Hne Hns].
  unfold redact_step in Ht; destruct (contains _ _); [|exact Ht].
  rewrite replace_nonempty in Ht by now apply truthy_nonempty.
  apply (replace_creates_nothing ki (restriction_marker ki) k t);
    [exact Hns|now apply truthy_nonempty|apply marker_nonempty
    |now apply truthy_nonempty|exact Ht].
Qed.

(** The pass of the keyword itself. *)
Lemma redact_step_own (k t : str) :
  truthy k = true -> str_eqb (lower k) k = true ->
  no_shared_char k (restriction_marker k) = true ->
  occurs_in k t ->
  occurs_in (restriction_marker k) (redact_step t k) /\ ~ occurs_in k (redact_step t k).
Proof.
  intros Hne Hlow Hns Ht; unfold redact_step.
  apply str_eqb_eq in Hlow.
  assert (Hc : contains (lower k) (lower t) = true)
    by now apply contains_occurs, lower_occurs.
  rewrite Hc, replace_nonempty by now apply truthy_nonempty.
  split.
  - apply replace_marks; [now apply truthy_nonempty|exact Ht].
  - apply replace_removes;
      [exact Hns|now apply truthy_nonempty|apply marker_nonempty].
Qed.

(** The whole loop, seen from one keyword of the list. *)
Lemma redact_keyword (before : list str) (k : str) (after : list str) (t : str) :
  redaction_safe before k after = true ->
  occurs_in k t ->
  occurs_in (restriction_marker k) (redact (before ++ k :: after) t) /\
  ~ occurs_in k (redact (before ++ k :: after) t).
Proof.
  unfold redaction_safe; intros Hsafe Ht.
  repeat (apply andb_true_iff in Hsafe as [Hsafe ?]).
  rename Hsafe into Hbefore.
  rewrite forallb_forall in Hbefore.
  match goal with H : forallb _ after = true |- _ =>
    rename H into Hafter; rewrite forallb_forall in Hafter end.
  rewrite redact_app, redact_cons.
  assert (Ht' : occurs_in k (redact before t)).
  { apply redact_keeps; [|exact Ht].
    intros ki Hki; apply andb_true_iff; auto. }
  destruct (redact_step_own k (redact before t)) as [Hmark Hgone]; auto.
  split.
  - apply redact_keeps; [|exact Hmark].
    intros ki Hki; specialize (Hafter ki Hki).
    apply andb_true_iff in Hafter as [Hafter _].
    now apply andb_true_iff in Hafter.
  - intros Hocc; apply Hgone.
    eapply redact_creates_nothing; [assumption| |exact Hocc].
    intros ki Hki; specialize (Hafter ki Hki).
    apply andb_true_iff in Hafter as [Hafter Hns].
    apply andb_true_iff in Hafter as [Hne _]; auto.
Qed.

(** The keyword at position [n] of the list, with the keywords before and
    after it: the conditions of [redaction_safe] are checked by evaluation. *)
Ltac keyword_at H n :=
  apply (H (firstn n sensitive_keywords) (skipn (S n) sensitive_keywords));
  vm_compute; reflexivity.

(** Every keyword of the program's list is redacted safely. *)
Lemma redact_sensitive_keyword (keyword t : str) :
  In keyword sensitive_keywords -> occurs_in keyword t ->
  occurs_in (restriction_marker keyword) (redact sensitive_keywords t) /\
  ~ occurs_in keyword (redact sensitive_keywords t).
Proof.
  intros Hin Ht.
  assert (Hsplit : forall before after,
            sensitive_keywords = before ++ keyword :: after ->
            redaction_safe before keyword after = true ->
            occurs_in (restriction_marker keyword) (redact sensitive_keywords t) /\
            ~ occurs_in keyword (redact sensitive_keywords t)).
  { intros before after -> Hsafe; now apply redact_keyword. }
  unfold sensitive_keywords in Hin; simpl in Hin.
  destruct Hin as [<-|[<-|[<-|[<-|[<-|[<-|[<-|[<-|[]]]]]]]]];
    [ keyword_at Hsplit 0%nat | keyword_at Hsplit 1%nat | keyword_at Hsplit 2%nat
    | keyword_at Hsplit 3%nat | keyword_at Hsplit 4%nat | keyword_at Hsplit 5%nat
    | keyword_at Hsplit 6%nat | keyword_at Hsplit 7%nat ].
Qed.

Lemma filter_response_unprivileged (response user_role : str) :
  canSeeSensitiveInfo user_role = false ->
  filter_response response user_role =
    Ok (if negb (str_eqb (redact sensitive_keywords response) response)
        then redact sensitive_keywords response ++ disclaimer
        else redact sensitive_keywords response).
Proof.
  unfold canSeeSensitiveInfo, filter_response, dict_item.
  rewrite <- effective_role_normalize.
  destruct (effective_role_known user_role) as [perms ->]; simpl.
  intros ->; now destruct (negb _).
Qed.

Lemma filter_response_privileged (response user_role : str) :
  canSeeSensitiveInfo user_role = true ->
  filter_response response user_role = Ok response.
Proof.
  unfold canSeeSensitiveInfo, filter_response, dict_item.
  rewrite <- effective_role_normalize.
  destruct (effective_role_known user_role) as [perms ->]; simpl.
  now intros ->.
Qed.

(** X7.  What [filter_response] does redact.  For a role without
    [sensitive_info] and a text in which a sensitive term occurs in its
    lower-case spelling, the result is a body followed by the disclaimer,
    where the body holds the restriction marker of the term and the term
    itself no longer occurs; for a role with [sensitive_info], such as
    "admin", the text comes back unchanged; and
    "passwords must be encrypted." for "public" becomes
    "[PASSWORD_INFO_RESTRICTED]s must be encrypted." plus the disclaimer. *)
Theorem filter_response_redacts_lowercase_term
    (response user_role keyword : str) :
  canSeeSensitiveInfo user_role = false ->
  In keyword sensitive_keywords ->
  contains keyword response = true ->
  (exists body,
     filter_response response user_role = Ok (body ++ disclaimer) /\
     contains (restriction_marker keyword) body = true /\
     contains keyword body = false) /\
  (forall role text, canSeeSensitiveInfo role = true ->
                     filter_response text role = Ok text) /\
  canSeeSensitiveInfo (lit "admin") = true /\
  filter_response (lit "passwords must be encrypted.") (lit "public") =
    Ok (lit "[PASSWORD_INFO_RESTRICTED]s must be encrypted." ++ disclaimer).
Proof.
  intros Hrole Hin Hocc; split; [|split; [|split]].
  - apply contains_occurs in Hocc.
    destruct (redact_sensitive_keyword keyword response Hin Hocc) as [Hmark Hgone].
    exists (redact sensitive_keywords response).
    rewrite filter_response_unprivileged by assumption.
    assert (Hne : str_eqb (redact sensitive_keywords response) response = false).
    { apply str_eqb_neq; intros Heq; apply Hgone; now rewrite Heq. }
    rewrite Hne; simpl; split; [reflexivity|]; split.
    + now apply contains_occurs.
    + destruct (contains keyword _) eqn:E; [|reflexivity].
      apply contains_occurs in E; contradiction.
  - intros role text; apply filter_response_privileged.
  - reflexivity.
  - vm_compute; reflexivity.
Qed.

Lemma filter_response_redacts_lowercase_term_witness :
  (exists body,
     filter_response
       (lit "This involves password security and firewall configuration.")
       (lit "public") = Ok (body ++ disclaimer) /\
     contains (restriction_marker (lit "firewall")) body = true /\
     contains (lit "firewall") body = false) /\
  (forall role text, canSeeSensitiveInfo role = true ->
                     filter_response text role = Ok text) /\
  canSeeSensitiveInfo (lit "admin") = true /\
  filter_response (lit "passwords must be encrypted.") (lit "public") =
    Ok (lit "[PASSWORD_INFO_RESTRICTED]s must be encrypted." ++ disclaimer).
Proof.
  apply (filter_response_redacts_lowercase_term
           (lit "This involves password security and firewall configuration.")
           (lit "public") (lit "firewall")).
  - reflexivity.
  - simpl; tauto.
  - reflexivity.
Defined.

(** C3.  The code misses a sensitive term in another casing.  The test
    of the loop lowers both the keyword and the text, so it finds
    "password" in "Passwords must be encrypted."; the replacement that
    follows is made with the lower-case keyword, which the text does not
    hold.  For the role "public", which lacks [sensitive_info], the text
    comes back as it was, with nothing replaced and no disclaimer. *)
Lemma filter_response_other_casing_unchanged :
  In (lit "password") sensitive_keywords /\
  contains (lower (lit "password")) (lower (lit "Passwords must be encrypted.")) = true /\
  canSeeSensitiveInfo (lit "public") = false /\
  filter_response (lit "Passwords must be encrypted.") (lit "public") =
    Ok (lit "Passwords must be encrypted.").
Proof.
  split; [simpl; tauto|].
  repeat split; vm_compute; reflexivity.
Qed.

End FilterResponseFacts.

(** ** AIQuerySystem.query *)

Module QueryFacts.
Import AIQuerySystem FilterDocumentsFacts.

(** C10.  On a system that is not initialized, [query] raises at once,
    before any search and without a call of the collaborator, and only an
    initialized system ever returns a response.  On an initialized system,
    when the role filter leaves no chunk of the search result, [query]
    returns the "no accessible information" response with empty sources
    and makes no call of the collaborator; when chunks are left, the one
    call of the collaborator gets the question and the filtered chunks. *)
Theorem query_fails_fast_and_skips_collaborator
    (generate_response : llm) (timestamp : str) (self : AIQuerySystem)
    (question : str) (top_k : Z) (user_role : str) :
  (initialized self = false ->
   query generate_response timestamp self question top_k user_role =
     (Raise uninitialized_error, [])) /\
  (forall answer calls,
     query generate_response timestamp self question top_k user_role = (Ok answer, calls) ->
     initialized self = true) /\
  (initialized self = true ->
   forall found,
     similarity_search (vector_store self) question top_k = Ok found ->
     (filterChunks found user_role = [] ->
      exists answer,
        query generate_response timestamp self question top_k user_role = (Ok answer, []) /\
        dict_get answer (lit "response") = Some (Plain (VStr no_information)) /\
        dict_get answer (lit "sources") = Some (Listed []) /\
        dict_get answer (lit "context_chunks") = Some (Plain (VInt 0))) /\
     (filterChunks found user_role <> [] ->
      snd (query generate_response timestamp self question top_k user_role) =
        [(question, filterChunks found user_role)])).
Proof.
  split; [|split].
  - intros Hinit; unfold query; now rewrite Hinit.
  - intros answer calls; unfold query.
    destruct (initialized self); [reflexivity|discriminate].
  - intros Hinit found Hfound; unfold query.
    rewrite Hinit, Hfound, filter_documents_filterChunks; cbn [negb].
    split.
    + intros ->; cbn [truthy negb].
      eexists; split; [reflexivity|]; repeat split; reflexivity.
    + intros Hne.
      destruct (filterChunks found user_role) as [|d ds] eqn:E; [contradiction|].
      cbn [truthy negb].
      destruct (generate_response question (d :: ds)) as [r|e]; [|reflexivity].
      destruct (filter_response (llm_text r) user_role); reflexivity.
Qed.

(** An instance: every chunk found comes from "cybersecurity.txt".  For
    "public" the filter leaves nothing, and the answer is the fixed one,
    with no call of the collaborator; for "admin" the collaborator is called
    once, with the three chunks; before initialization the call raises. *)
Example query_restricted_source :
  let collaborator : llm := fun _ chunks =>
    Ok {| llm_text := lit "Use a firewall.";
          llm_sources := [VStr (lit "cybersecurity.txt")];
          llm_model := lit "system-fallback";
          llm_context_used := len chunks |} in
  let system := {| vector_store := restricted_store; initialized := true |} in
  let blank := {| vector_store := new_store; initialized := false |} in
  query collaborator (lit "2025-01-01T00:00:00") system (lit "a") 3 (lit "public") =
    (Ok [ (lit "query", Plain (VStr (lit "a")));
          (lit "response", Plain (VStr no_information));
          (lit "sources", Listed []);
          (lit "timestamp", Plain (VStr (lit "2025-01-01T00:00:00")));
          (lit "context_chunks", Plain (VInt 0));
          (lit "user_role", Plain (VStr (lit "public"))) ], []) /\
  map (fun call => length (snd call))
      (snd (query collaborator (lit "2025-01-01T00:00:00") system (lit "a") 3 (lit "admin")))
    = [3%nat] /\
  query collaborator (lit "2025-01-01T00:00:00") blank (lit "a") 3 (lit "admin") =
    (Raise uninitialized_error, []).
Proof. repeat split; vm_compute; reflexivity. Qed.

End QueryFacts.

(* ================================================================== *)
(** * Part III: further properties of the code *)
(* ================================================================== *)

(** ** More on dictionaries *)

Module DictMore.

Lemma list_mem_In (k : str) (l : list str) : list_mem k l = true <-> In k l.
Proof.
  unfold list_mem; rewrite existsb_exists; split.
  - intros (x & Hx & E); apply str_eqb_eq in E; now subst.
  - intros Hk; exists k; split; [exact Hk|apply str_eqb_refl].
Qed.

Lemma list_mem_not_In (k : str) (l : list str) : list_mem k l = false <-> ~ In k l.
Proof.
  rewrite <- list_mem_In; destruct (list_mem k l); split; congruence.
Qed.

Lemma dict_get_set_same {V} (d : dict V) (k : str) (v : V) :
  dict_get (dict_set d k v) k = Some v.
Proof.
  induction d as [|[k' v'] d IH]; simpl.
  - now rewrite str_eqb_refl.
  - destruct (str_eqb k' k) eqn:E; simpl; now rewrite E.
Qed.

Lemma dict_get_set_other {V} (d : dict V) (k k' : str) (v : V) :
  k <> k' -> dict_get (dict_set d k v) k' = dict_get d k'.
Proof.
  intros Hne; induction d as [|[k0 v0] d IH]; simpl.
  - apply str_eqb_neq in Hne; now rewrite Hne.
  - destruct (str_eqb k0 k) eqn:E; simpl.
    + apply str_eqb_eq in E; subst.
      apply str_eqb_neq in Hne; now rewrite Hne.
    + destruct (str_eqb k0 k'); [reflexivity|exact IH].
Qed.

Lemma dict_set_keys {V} (d : dict V) (k : str) (v : V) (k' : str) :
  In k' (map fst (dict_set d k v)) <-> k' = k \/ In k' (map fst d).
Proof.
  induction d as [|[k0 v0] d IH]; simpl.
  - split; [intros [<-|[]]; auto|intros [->|[]]; auto].
  - destruct (str_eqb k0 k) eqn:E; simpl.
    + apply str_eqb_eq in E; subst; intuition congruence.
    + rewrite IH; tauto.
Qed.

Lemma dict_set_keys_NoDup {V} (d : dict V) (k : str) (v : V) :
  NoDup (map fst d) -> NoDup (map fst (dict_set d k v)).
Proof.
  induction d as [|[k0 v0] d IH]; simpl; intros Hd.
  - constructor; [tauto|constructor].
  - inversion Hd as [|? ? Hk0 Hd']; subst.
    destruct (str_eqb k0 k) eqn:E; simpl; constructor; auto.
    rewrite dict_set_keys; intros [->|Hin]; [|contradiction].
    rewrite str_eqb_refl in E; discriminate.
Qed.

Lemma dict_get_map {V W} (g : V -> W) (d : dict V) (k : str) :
  dict_get (map (fun kv => (fst kv, g (snd kv))) d) k = option_map g (dict_get d k).
Proof.
  induction d as [|[k' v] d IH]; simpl; [reflexivity|].
  destruct (str_eqb k' k); [reflexivity|exact IH].
Qed.

Lemma dict_get_Some_key {V} (d : dict V) (k : str) (v : V) :
  dict_get d k = Some v -> In k (map fst d).
Proof.
  intros Hget; destruct (in_dec str_eq_dec k (map fst d)) as [Hin|Hout]; [exact Hin|].
  apply dict_get_None in Hout; congruence.
Qed.

(** Distinct values: a value belongs to one key only. *)
Lemma dict_values_NoDup_inj {V} (d : dict V) (k1 k2 : str) (v : V) :
  NoDup (map snd d) -> In (k1, v) d -> In (k2, v) d -> k1 = k2.
Proof.
  induction d as [|[k0 v0] d IH]; simpl; [tauto|].
  intros Hnd; inversion Hnd as [|? ? Hv0 Hnd']; subst.
  intros [E1|H1] [E2|H2]; auto.
  - congruence.
  - exfalso; apply Hv0; apply (in_map snd) in H2.
    injection E1 as _ ->; exact H2.
  - exfalso; apply Hv0; apply (in_map snd) in H1.
    injection E2 as _ ->; exact H1.
Qed.

End DictMore.
Import DictMore.

(** ** More on SimpleEmbeddings *)

Module ModelMore.
Import ModelFacts StoreFacts.

(** The loop that fills a dictionary with quotients, over items with
    pairwise distinct new keys: the items in their order, each with its
    quotient. *)
Lemma fold_truediv_eq {V} (num den : V -> nat) (g : float -> float)
    (l : list (str * V)) (d0 : dict float) :
  Forall (fun kv => den (snd kv) <> O) l ->
  NoDup (map fst l) ->
  (forall k, In k (map fst l) -> ~ In k (map fst d0)) ->
  fold_left
    (fun acc kv =>
       bind acc (fun d =>
       bind (truediv (num (snd kv)) (den (snd kv))) (fun q =>
       Ok (dict_set d (fst kv) (g q)))))
    l (Ok d0)
  = Ok (d0 ++ map (fun kv => (fst kv,
                              g (float_of_nat (num (snd kv)) / float_of_nat (den (snd kv)))%float))
                  l).
Proof.
  revert d0; induction l as [|[k v] l IH]; simpl; intros d0 Hden Hnd Hfresh.
  - now rewrite app_nil_r.
  - inversion Hden as [|? ? Hv Hden']; subst.
    inversion Hnd as [|? ? Hk Hnd']; subst.
    simpl in Hv; destruct (den v) as [|n] eqn:E; [contradiction|]; simpl.
    rewrite dict_set_fresh by (apply dict_get_None; auto).
    rewrite IH; auto.
    + rewrite <- app_assoc; reflexivity.
    + intros k' Hk'; rewrite map_app, in_app_iff; simpl.
      intros [Hd|[->|[]]]; [eapply Hfresh; eauto|contradiction].
Qed.

(** [Counter]: each token with the number of its occurrences. *)
Lemma Counter_fold_get (tokens : list str) (d : dict nat) (t : str) :
  dict_get
    (fold_left (fun d t => dict_set d t (S (dict_get_default d t O))) tokens d) t
  = bump (dict_get d t) (occurrences t tokens).
Proof.
  revert d; induction tokens as [|x tokens IH]; intros d; [reflexivity|].
  cbn [fold_left]; rewrite IH; unfold occurrences.
  destruct (str_eq_dec x t) as [->|Hne].
  - rewrite count_occ_cons_eq, dict_get_set_same by reflexivity.
    unfold dict_get_default.
    destruct (count_occ str_eq_dec tokens t), (dict_get d t); simpl; f_equal; lia.
  - rewrite count_occ_cons_neq, dict_get_set_other by assumption; reflexivity.
Qed.

Lemma Counter_get (tokens : list str) (t : str) :
  dict_get (Counter tokens) t =
    match occurrences t tokens with O => None | S n => Some (S n) end.
Proof.
  unfold Counter; rewrite Counter_fold_get; simpl.
  now destruct (occurrences t tokens).
Qed.

Lemma Counter_keys_NoDup (tokens : list str) : NoDup (map fst (Counter tokens)).
Proof.
  unfold Counter.
  assert (H : forall d, NoDup (map fst d) ->
    NoDup (map fst (fold_left (fun d t => dict_set d t (S (dict_get_default d t O)))
                              tokens d))).
  { induction tokens as [|x tokens IH]; simpl; intros d Hd; [exact Hd|].
    apply IH, dict_set_keys_NoDup, Hd. }
  apply H; constructor.
Qed.

(** [_compute_tf]: each token of the text with its share of the tokens. *)
Lemma _compute_tf_eq (tokens : list str) :
  _compute_tf tokens =
    Ok (map (fun kv => (fst kv,
                        (float_of_nat (snd kv) / float_of_nat (length tokens))%float))
            (Counter tokens)).
Proof.
  unfold _compute_tf.
  rewrite (fold_truediv_eq (fun c => c) (fun _ => length tokens) (fun q => q)).
  - reflexivity.
  - destruct tokens as [|t tokens]; [constructor|].
    apply Forall_forall; intros; simpl; discriminate.
  - apply Counter_keys_NoDup.
  - simpl; tauto.
Qed.

Lemma _compute_tf_get (tokens : list str) (tf : dict float) (t : str) :
  _compute_tf tokens = Ok tf ->
  dict_get tf t =
    match occurrences t tokens with
    | O => None
    | S n => Some (float_of_nat (S n) / float_of_nat (length tokens))%float
    end.
Proof.
  rewrite _compute_tf_eq; intros [= <-].
  rewrite (dict_get_map (fun c => (float_of_nat c / float_of_nat (length tokens))%float)).
  rewrite Counter_get; now destruct (occurrences t tokens).
Qed.

Lemma _compute_tf_keys_NoDup (tokens : list str) (tf : dict float) :
  _compute_tf tokens = Ok tf -> NoDup (map fst tf).
Proof.
  rewrite _compute_tf_eq; intros [= <-].
  rewrite map_map; simpl; apply Counter_keys_NoDup.
Qed.

Section WithRuntime.
Context `{Runtime}.

(** The inner loop of [_compute_idf] over the distinct tokens of one
    document. *)
Lemma count_document_get (u : list str) (wdc : dict nat) (t : str) :
  NoDup u ->
  dict_get
    (fold_left (fun wdc token => dict_set wdc token (dict_get_default wdc token O + 1)%nat)
               u wdc) t
  = bump (dict_get wdc t) (if list_mem t u then 1 else 0).
Proof.
  revert wdc; induction u as [|x u IH]; intros wdc Hnd; [reflexivity|].
  inversion Hnd as [|? ? Hx Hnd']; subst.
  cbn [fold_left]; rewrite IH by assumption.
  destruct (str_eq_dec x t) as [->|Hne].
  - apply list_mem_not_In in Hx; rewrite Hx.
    unfold list_mem; simpl; rewrite str_eqb_refl; simpl.
    rewrite dict_get_set_same; unfold dict_get_default.
    destruct (dict_get wdc t); simpl; f_equal; lia.
  - rewrite dict_get_set_other by assumption.
    unfold list_mem at 2; simpl.
    replace (str_eqb t x) with false
      by (symmetry; apply str_eqb_neq; congruence).
    reflexivity.
Qed.

Lemma bump_bump (o : option nat) (a b : nat) : bump (bump o a) b = bump o (a + b).
Proof.
  destruct a, b, o; simpl; try reflexivity; f_equal; lia.
Qed.

Lemma word_doc_count_fold_get (documents : list str) (wdc : dict nat) (t : str) :
  dict_get
    (fold_left
       (fun wdc doc =>
          fold_left (fun wdc token => dict_set wdc token (dict_get_default wdc token O + 1)%nat)
                    (set_list (_tokenize doc)) wdc)
       documents wdc) t
  = bump (dict_get wdc t) (document_frequency t documents).
Proof.
  revert wdc; induction documents as [|doc documents IH]; intros wdc; [reflexivity|].
  cbn [fold_left]; rewrite IH, count_document_get by apply set_list_NoDup.
  rewrite bump_bump; f_equal.
  unfold document_frequency; simpl.
  assert (Hmem : list_mem t (set_list (_tokenize doc)) = list_mem t (_tokenize doc)).
  { destruct (list_mem t (_tokenize doc)) eqn:E.
    - apply list_mem_In; apply set_list_In; now apply list_mem_In.
    - apply list_mem_not_In; rewrite set_list_In; now apply list_mem_not_In. }
  rewrite Hmem; now destruct (list_mem t (_tokenize doc)).
Qed.

Lemma word_doc_count_get (documents : list str) (t : str) :
  dict_get (word_doc_count documents) t =
    match document_frequency t documents with O => None | S n => Some (S n) end.
Proof.
  unfold word_doc_count; rewrite word_doc_count_fold_get; simpl.
  now destruct (document_frequency t documents).
Qed.

Lemma word_doc_count_keys_NoDup (documents : list str) :
  NoDup (map fst (word_doc_count documents)).
Proof.
  unfold word_doc_count.
  assert (Hinner : forall u wdc, NoDup (map fst wdc) ->
    NoDup (map fst
      (fold_left (fun wdc token => dict_set wdc token (dict_get_default wdc token O + 1)%nat)
                 u wdc))).
  { induction u as [|x u IH]; simpl; intros wdc Hw; [exact Hw|].
    apply IH, dict_set_keys_NoDup, Hw. }
  assert (Houter : forall docs wdc, NoDup (map fst wdc) ->
    NoDup (map fst
      (fold_left
         (fun wdc doc =>
            fold_left (fun wdc token => dict_set wdc token (dict_get_default wdc token O + 1)%nat)
                      (set_list (_tokenize doc)) wdc)
         docs wdc))).
  { induction docs as [|doc docs IH]; simpl; intros wdc Hw; [exact Hw|].
    apply IH, Hinner, Hw. }
  apply Houter; constructor.
Qed.

Lemma _compute_idf_eq (documents : list str) :
  _compute_idf documents =
    Ok (map (fun kv => (fst kv,
                        math_log (float_of_nat (length documents) / float_of_nat (snd kv))%float))
            (word_doc_count documents)).
Proof.
  unfold _compute_idf.
  rewrite (fold_truediv_eq (fun _ => length documents) (fun c => c) math_log).
  - reflexivity.
  - apply word_doc_count_positive.
  - apply word_doc_count_keys_NoDup.
  - simpl; tauto.
Qed.

(** The vocabulary that [fit] builds: the distinct tokens in the order of
    the set, numbered from 0. *)
Lemma fit_vocabulary_eq (self : SimpleEmbeddings) (documents : list str) :
  exists m,
    fit self documents = Ok m /\
    fitted m = true /\
    vocabulary m =
      map (fun it => (snd it, Z.of_nat (fst it)))
          (enumerate O (set_list (concat (map _tokenize documents)))) /\
    _compute_idf documents = Ok (idf_scores m).
Proof.
  unfold fit.
  destruct (_compute_idf_Ok documents) as [idf Hidf]; rewrite Hidf; simpl.
  eexists; split; [reflexivity|]; simpl; repeat split.
  apply dict_of_items_NoDup.
  rewrite map_map; simpl; rewrite enumerate_snd; apply set_list_NoDup.
Qed.

(** X1.  [fit] never raises, and the vocabulary of the fitted model holds
    exactly the tokens that occur in some document of the corpus, with the
    columns 0, 1, ..., n-1 in the order of its entries: no column is used
    twice and none is left out. *)
Theorem fit_vocabulary_columns (self : SimpleEmbeddings) (documents : list str) :
  exists m,
    fit self documents = Ok m /\
    (forall token,
       dict_mem (vocabulary m) token = true <->
       exists d, In d documents /\ In token (_tokenize d)) /\
    map snd (vocabulary m) = map Z.of_nat (seq 0 (length (vocabulary m))).
Proof.
  destruct (fit_vocabulary_eq self documents) as (m & Hfit & _ & Hvoc & _).
  exists m; split; [exact Hfit|]; rewrite Hvoc; split.
  - intros token; unfold dict_mem.
    set (voc := map _ _).
    assert (Hkeys : map fst voc = set_list (concat (map _tokenize documents)))
      by (unfold voc; rewrite map_map; simpl; apply enumerate_snd).
    assert (Hin : In token (map fst voc) <->
                  exists d, In d documents /\ In token (_tokenize d)).
    { rewrite Hkeys, set_list_In, in_concat; split.
      - intros (l & Hl & Ht); apply in_map_iff in Hl as (d & <- & Hd); eauto.
      - intros (d & Hd & Ht); exists (_tokenize d); split; [now apply in_map|exact Ht]. }
    rewrite <- Hin; destruct (dict_get voc token) eqn:E.
    + split; [intros _; eapply dict_get_Some_key; eauto|reflexivity].
    + apply dict_get_None in E; split; [discriminate|contradiction].
  - rewrite length_map, enumerate_length, !map_map; simpl.
    rewrite <- (enumerate_fst (set_list (concat (map _tokenize documents))) 0).
    now rewrite map_map.
Qed.

(** X2.  The IDF table of the fitted model has an entry for exactly the
    tokens that occur in the corpus, and the entry of a token is
    [math.log(N / d)] for the number [N] of documents and the number [d] of
    documents in which the token occurs. *)
Theorem fit_idf_scores (self : SimpleEmbeddings) (documents : list str) :
  exists m,
    fit self documents = Ok m /\
    forall token,
      dict_get (idf_scores m) token =
        match document_frequency token documents with
        | O => None
        | S n =>
            Some (math_log (float_of_nat (length documents) / float_of_nat (S n))%float)
        end.
Proof.
  destruct (fit_vocabulary_eq self documents) as (m & Hfit & _ & _ & Hidf).
  exists m; split; [exact Hfit|]; intros token.
  rewrite _compute_idf_eq in Hidf; injection Hidf as <-.
  rewrite (dict_get_map
             (fun c => math_log (float_of_nat (length documents) / float_of_nat c)%float)).
  rewrite word_doc_count_get; now destruct (document_frequency token documents).
Qed.

End WithRuntime.

End ModelMore.

(** ** More on transform and similarity_search *)

Module SearchMore.
Import ModelFacts StoreFacts ModelMore.

Lemma list_setitem_nth {A} (v v' : list A) (idx : Z) (x d : A) :
  0 <= idx < len v -> list_setitem v idx x = Ok v' ->
  nth (Z.to_nat idx) v' d = x /\
  forall j, j <> Z.to_nat idx -> nth j v' d = nth j v d.
Proof.
  intros Hidx; unfold list_setitem, len in *.
  destruct (idx <? 0) eqn:E; [apply Z.ltb_lt in E; lia|].
  destruct (0 <=? idx) eqn:E1; [|apply Z.leb_gt in E1; lia].
  destruct (idx <? Z.of_nat (length v)) eqn:E2; [|apply Z.ltb_ge in E2; lia].
  cbn [andb]; intros Heq; injection Heq as <-.
  set (i := Z.to_nat idx).
  assert (Hi : (i < length v)%nat) by (unfold i; lia).
  assert (Hlen : length (firstn i v) = i) by (rewrite length_firstn; lia).
  split.
  - rewrite app_nth2 by lia; rewrite Hlen, Nat.sub_diag; reflexivity.
  - intros j Hj; destruct (Nat.lt_ge_cases j i) as [Hlt|Hge].
    + rewrite app_nth1 by lia; rewrite nth_firstn.
      destruct (Nat.ltb_spec j i); [reflexivity|lia].
    + rewrite app_nth2 by lia; rewrite Hlen.
      replace (j - i)%nat with (S (j - i - 1)) by lia.
      change (nth (j - i - 1) (skipn (S i) v) d = nth j v d).
      rewrite nth_skipn; f_equal; lia.
Qed.

(** The loop of [transform], column by column: a token of the text writes
    its product into its own column, and every other column keeps what it
    had. *)
Lemma fill_nth (m : SimpleEmbeddings) (items : dict float) (v0 : list float) :
  columns_in_range m -> NoDup (map snd (vocabulary m)) ->
  NoDup (map fst items) -> length v0 = length (vocabulary m) ->
  exists v,
    fill m items (Ok v0) = Ok v /\ length v = length (vocabulary m) /\
    forall token idx,
      dict_get (vocabulary m) token = Some idx ->
      nth (Z.to_nat idx) v 0%float =
        match dict_get items token with
        | Some tf => (tf * dict_get_default (idf_scores m) token 0)%float
        | None => nth (Z.to_nat idx) v0 0%float
        end.
Proof.
  intros Hm Hcols; revert v0; induction items as [|[t1 f1] items IH]; intros v0 Hnd Hlen.
  - exists v0; simpl; auto.
  - inversion Hnd as [|? ? Ht1 Hnd']; subst.
    unfold fill in *; cbn [fold_left bind fst snd].
    destruct (dict_get (vocabulary m) t1) as [i1|] eqn:E1.
    + assert (Hi1 : 0 <= i1 < len v0) by (apply Hm in E1; unfold len in *; lia).
      destruct (list_setitem_Ok v0 i1 (f1 * dict_get_default (idf_scores m) t1 0)%float Hi1)
        as (v1 & Hset & Hlen1).
      rewrite Hset.
      destruct (IH v1 Hnd') as (v & Hfill & Hv & Hnth); [lia|].
      exists v; split; [exact Hfill|]; split; [exact Hv|].
      intros token idx Hget; rewrite (Hnth token idx Hget).
      destruct (list_setitem_nth v0 v1 i1 _ 0%float Hi1 Hset) as [Hsame Hother].
      simpl; destruct (str_eqb t1 token) eqn:Et.
      * apply str_eqb_eq in Et; subst.
        apply dict_get_None in Ht1; rewrite Ht1.
        rewrite E1 in Hget; injection Hget as <-; exact Hsame.
      * destruct (dict_get items token); [reflexivity|].
        apply Hother; intros Heq.
        assert (idx = i1).
        { pose proof (Hm _ _ Hget); pose proof (Hm _ _ E1); lia. }
        subst; apply str_eqb_neq in Et; apply Et.
        eapply dict_values_NoDup_inj; eauto using dict_get_In.
    + destruct (IH v0 Hnd' Hlen) as (v & Hfill & Hv & Hnth).
      exists v; split; [exact Hfill|]; split; [exact Hv|].
      intros token idx Hget; rewrite (Hnth token idx Hget).
      simpl; destruct (str_eqb t1 token) eqn:Et; [|reflexivity].
      apply str_eqb_eq in Et; subst; congruence.
Qed.

(** X3.  On a fitted model whose columns are in range and pairwise
    distinct, [transform] returns a vector of the length of the vocabulary
    in which the column of a token holds its term frequency (occurrences
    over the number of tokens of the text) times its IDF score (0 when it
    has none), and 0 when the token does not occur in the text. *)
Theorem transform_entries (m : SimpleEmbeddings) (text : str) :
  fitted m = true -> columns_in_range m -> NoDup (map snd (vocabulary m)) ->
  exists v,
    transform m text = Ok v /\ length v = length (vocabulary m) /\
    forall token idx,
      dict_get (vocabulary m) token = Some idx ->
      nth (Z.to_nat idx) v 0%float =
        match occurrences token (_tokenize text) with
        | O => 0%float
        | S n =>
            ((float_of_nat (S n) / float_of_nat (length (_tokenize text)))
             * dict_get_default (idf_scores m) token 0)%float
        end.
Proof.
  intros Hf Hm Hcols.
  destruct (transform_fitted m text Hf) as (tf & Htf & ->).
  destruct (fill_nth m tf (repeat 0%float (length (vocabulary m))) Hm Hcols)
    as (v & Hfill & Hv & Hnth).
  { eapply _compute_tf_keys_NoDup; eauto. }
  { apply repeat_length. }
  exists v; split; [exact Hfill|]; split; [exact Hv|].
  intros token idx Hget; rewrite (Hnth token idx Hget).
  rewrite (_compute_tf_get _ _ token Htf).
  destruct (occurrences token (_tokenize text)); [|reflexivity].
  apply nth_repeat.
Qed.

Lemma transform_entries_witness :
  exists v,
    transform (embeddings_model three_store) (lit "b a, b!") = Ok v /\
    length v = length (vocabulary (embeddings_model three_store)) /\
    forall token idx,
      dict_get (vocabulary (embeddings_model three_store)) token = Some idx ->
      nth (Z.to_nat idx) v 0%float =
        match occurrences token (_tokenize (lit "b a, b!")) with
        | O => 0%float
        | S n =>
            ((float_of_nat (S n) / float_of_nat (length (_tokenize (lit "b a, b!"))))
             * dict_get_default (idf_scores (embeddings_model three_store)) token 0)%float
        end.
Proof.
  apply (transform_entries (embeddings_model three_store) (lit "b a, b!")).
  - reflexivity.
  - intros token idx Hget; apply dict_get_In in Hget.
    vm_compute in Hget; unfold len; cbn [three_store embeddings_model vocabulary length].
    destruct Hget as [Hget|[Hget|[]]]; injection Hget as _ <-; lia.
  - simpl; repeat constructor; simpl; [intros [H|[]]; discriminate|tauto].
Defined.

(** Tokens that the vocabulary does not know leave the vector alone. *)
Lemma fill_unknown (m : SimpleEmbeddings) (items : dict float) (v : list float) :
  (forall token, In token (map fst items) -> dict_get (vocabulary m) token = None) ->
  fill m items (Ok v) = Ok v.
Proof.
  induction items as [|[t f] items IH]; intros Hunk; [reflexivity|].
  unfold fill in *; cbn [fold_left bind fst snd].
  rewrite (Hunk t) by (simpl; auto).
  apply IH; intros; apply Hunk; simpl; auto.
Qed.

Lemma _compute_tf_keys (tokens : list str) (tf : dict float) (t : str) :
  _compute_tf tokens = Ok tf -> In t (map fst tf) -> In t tokens.
Proof.
  intros Htf Hin.
  destruct (dict_get tf t) eqn:E; [|apply dict_get_None in E; contradiction].
  rewrite (_compute_tf_get _ _ t Htf) in E.
  apply (count_occ_In str_eq_dec); unfold occurrences in E.
  destruct (count_occ str_eq_dec tokens t); [discriminate|lia].
Qed.

Lemma transform_unknown (m : SimpleEmbeddings) (query : str) :
  fitted m = true ->
  (forall token, In token (_tokenize query) -> dict_get (vocabulary m) token = None) ->
  transform m query = Ok (repeat 0%float (length (vocabulary m))).
Proof.
  intros Hf Hunk.
  destruct (transform_fitted m query Hf) as (tf & Htf & ->).
  apply fill_unknown; intros token Hin; apply Hunk.
  eapply _compute_tf_keys; eauto.
Qed.

Lemma fsum_squares_zero (n : nat) :
  fsum (map (fun a => a * a)%float (repeat 0%float n)) = 0%float.
Proof.
  unfold fsum; induction n as [|n IH]; [reflexivity|].
  cbn [repeat map fold_left].
  change (0 + 0 * 0)%float with 0%float; exact IH.
Qed.

(** The guard of [_cosine_similarity]: against the zero vector every
    vector scores 0. *)
Lemma _cosine_similarity_zero (n : nat) (v : list float) :
  _cosine_similarity (repeat 0%float n) v = 0%float.
Proof.
  unfold _cosine_similarity; cbv zeta.
  rewrite fsum_squares_zero.
  change (PrimFloat.sqrt 0 =? 0)%float with true; reflexivity.
Qed.

(** What [similarity_search] returns once the query is transformed and
    every row has its chunk. *)
Lemma similarity_search_entries (self : VectorStore) (query : str) (k : Z)
    (query_vector : list float) :
  transform (embeddings_model self) query = Ok query_vector ->
  (length (vectors self) <= length (metadata self))%nat ->
  similarity_search self query k =
    Ok (map (fun si => scored (nth (snd si) (metadata self) []) (fst si))
            (ranking query_vector (vectors self) k)).
Proof.
  intros Ht Hmd; unfold similarity_search.
  destruct (vectors self) as [|v vs] eqn:Ev.
  { pose proof (proj1 (ranking_length query_vector [] k)) as Hlen.
    destruct (ranking query_vector [] k); [reflexivity|simpl in Hlen; lia]. }
  cbn [truthy negb]; rewrite Ht; cbn [bind].
  apply mapM_Ok; intros si Hsi.
  apply ranking_rows in Hsi.
  unfold result_entry, scored.
  destruct (nth_error (metadata self) (snd si)) as [d|] eqn:E.
  - now rewrite (nth_error_nth _ _ _ E).
  - apply nth_error_None in E; lia.
Qed.

Lemma ranking_In (query_vector : list float) (vs : list (list float)) (k : Z)
    (si : float * nat) :
  In si (ranking query_vector vs k) ->
  exists v, In v vs /\ fst si = _cosine_similarity query_vector v.
Proof.
  unfold ranking, slice_to; intros H; apply slice_incl in H.
  eapply Permutation_in in H; [|symmetry; apply sort_reverse_perm].
  unfold similarities in H; apply in_map_iff in H as ([i v] & <- & Hin).
  apply enumerate_In in Hin as [_ Hin]; exists v; split; [|reflexivity].
  eapply nth_error_In; eauto.
Qed.

(** X4.  A query none of whose tokens is in the vocabulary transforms to
    the zero vector, and the search then returns its results with the
    similarity 0.0 on every one of them. *)
Theorem search_unknown_query (self : VectorStore) (query : str) (k : Z) :
  fitted (embeddings_model self) = true ->
  (forall token, In token (_tokenize query) ->
                 dict_get (vocabulary (embeddings_model self)) token = None) ->
  (length (vectors self) <= length (metadata self))%nat ->
  transform (embeddings_model self) query =
    Ok (repeat 0%float (length (vocabulary (embeddings_model self)))) /\
  exists results,
    similarity_search self query k = Ok results /\
    Forall (fun r => dict_get r (lit "similarity") = Some (VFloat 0)) results.
Proof.
  intros Hf Hunk Hmd.
  pose proof (transform_unknown _ _ Hf Hunk) as Ht; split; [exact Ht|].
  eexists; split; [apply (similarity_search_entries _ _ _ _ Ht Hmd)|].
  apply Forall_forall; intros r Hr.
  apply in_map_iff in Hr as (si & <- & Hsi).
  apply ranking_In in Hsi as (v & _ & Hsim).
  rewrite _cosine_similarity_zero in Hsim.
  unfold scored; rewrite dict_get_set_same, Hsim; reflexivity.
Qed.

Lemma search_unknown_query_witness :
  transform (embeddings_model three_store) (lit "zebra?") =
    Ok (repeat 0%float (length (vocabulary (embeddings_model three_store)))) /\
  exists results,
    similarity_search three_store (lit "zebra?") 2 = Ok results /\
    Forall (fun r => dict_get r (lit "similarity") = Some (VFloat 0)) results.
Proof.
  apply (search_unknown_query three_store (lit "zebra?") 2).
  - reflexivity.
  - intros token [<-|[]]; reflexivity.
  - simpl; lia.
Defined.

Lemma ranking_rows_NoDup (query_vector : list float) (vs : list (list float)) (k : Z) :
  NoDup (map snd (ranking query_vector vs k)).
Proof.
  unfold ranking, slice_to, slice.
  assert (Hall : NoDup (map snd (sort_reverse (similarities query_vector vs)))).
  { eapply Permutation_NoDup;
      [apply Permutation_map, sort_reverse_perm|].
    rewrite similarities_rows; apply seq_NoDup. }
  set (l := sort_reverse _) in *.
  set (a := Z.to_nat (adjust (len l) 0)); set (n := Z.to_nat _).
  rewrite <- (firstn_skipn a l), map_app in Hall; apply NoDup_app_remove_l in Hall.
  rewrite <- (firstn_skipn n (skipn a l)), map_app in Hall.
  now apply NoDup_app_remove_r in Hall.
Qed.

Lemma ranking_count (query_vector : list float) (vs : list (list float)) (k : Z) :
  len (ranking query_vector vs k) = slice_to_len (len vs) k.
Proof.
  unfold slice_to_len; destruct (k <? 0) eqn:E.
  - apply Z.ltb_lt in E; unfold len; rewrite ranking_negative_k by assumption; lia.
  - apply Z.ltb_ge in E; unfold ranking; rewrite slice_to_nonneg by assumption.
    unfold len; rewrite length_firstn, sort_reverse_length, similarities_length; lia.
Qed.

(** X5.  Once the query is transformed and every row has its chunk, the
    search returns one entry for each row of [similarities[:k]]: no row
    twice, and as many entries as that slice has, [min(k, n)] for [k >= 0]
    and [max(0, n + k)] for [k < 0] on a store of [n] rows. *)
Theorem search_result_count (self : VectorStore) (query : str) (k : Z)
    (query_vector : list float) :
  transform (embeddings_model self) query = Ok query_vector ->
  (length (vectors self) <= length (metadata self))%nat ->
  exists results,
    similarity_search self query k = Ok results /\
    len results = slice_to_len (len (vectors self)) k /\
    NoDup (map snd (ranking query_vector (vectors self) k)) /\
    results = map (fun si => scored (nth (snd si) (metadata self) []) (fst si))
                  (ranking query_vector (vectors self) k).
Proof.
  intros Ht Hmd; eexists; split; [apply (similarity_search_entries _ _ _ _ Ht Hmd)|].
  split; [|split; [apply ranking_rows_NoDup|reflexivity]].
  unfold len at 1; rewrite length_map; apply ranking_count.
Qed.

Lemma search_result_count_witness :
  exists results,
    similarity_search three_store (lit "a") 7 = Ok results /\
    len results = slice_to_len (len (vectors three_store)) 7 /\
    NoDup (map snd (ranking [idf_a; 0%float] (vectors three_store) 7)) /\
    results = map (fun si => scored (nth (snd si) (metadata three_store) []) (fst si))
                  (ranking [idf_a; 0%float] (vectors three_store) 7).
Proof.
  apply (search_result_count three_store (lit "a") 7 [idf_a; 0%float]).
  - reflexivity.
  - simpl; lia.
Defined.

Section WithRuntime.
Context `{Runtime}.

(** X6.  A store built by [add_documents] on a new store, from chunks that
    all have a text, answers every search: no query and no [k] makes
    [similarity_search] raise, and the result has the size of the slice
    [[:k]] of the chunks. *)
Theorem search_built_store_total (documents : list doc) (texts : list str) :
  doc_texts documents = Ok texts ->
  exists s,
    add_documents new_store documents = Ok s /\
    forall query k, exists results,
      similarity_search s query k = Ok results /\
      len results = slice_to_len (len documents) k.
Proof.
  intros Ht.
  destruct (add_documents_Ok new_store documents texts Ht) as (m & vs & Hadd & Hfit & Hlen & _).
  eexists; split; [exact Hadd|]; intros query k.
  destruct (fit_Ok (embeddings_model new_store) texts) as (m' & Hfit' & Hf & Hm & _).
  rewrite Hfit in Hfit'; injection Hfit' as <-.
  destruct (transform_Ok m query Hf Hm) as (qv & Hqv & _).
  eexists; split.
  - apply (similarity_search_entries _ query k qv); simpl; [exact Hqv|lia].
  - unfold len at 1; rewrite length_map.
    etransitivity; [apply ranking_count|].
    cbn [vectors new_store app]; unfold len; now rewrite Hlen.
Qed.

End WithRuntime.

Lemma search_built_store_total_witness :
  exists s,
    @add_documents (last_occurrence_runtime log_table) new_store three_chunks = Ok s /\
    forall query k, exists results,
      similarity_search s query k = Ok results /\
      len results = slice_to_len (len three_chunks) k.
Proof.
  apply (@search_built_store_total (last_occurrence_runtime log_table) three_chunks
           [lit "a"; lit "a"; lit "b"]).
  reflexivity.
Defined.

End SearchMore.

(** ** More on RoleFilter *)

Module FilterMore.
Import PyFacts DictFacts DictMore FilterDocumentsFacts ReplaceFacts FilterResponseFacts.

(** Without a match of [old] the scan copies the text. *)
Lemma replace_scan_absent (old new s : str) :
  ~ occurs_in old s -> replace_scan old new 0 s = s.
Proof.
  induction s as [|c s IH]; intros Habs; [reflexivity|].
  cbn [replace_scan]; destruct (prefixb old (c :: s)) eqn:E.
  - exfalso; apply Habs; now apply occurs_prefix.
  - f_equal; apply IH; intros Hocc; apply Habs.
    now apply (occurs_app_r old [c] s).
Qed.

(** A replacement by something at least as long never shortens the text. *)
Lemma replace_scan_length (old new : str) :
  old <> [] -> (length old <= length new)%nat ->
  forall n s, (length s <= n)%nat ->
    (length s <= length (replace_scan old new 0 s))%nat.
Proof.
  intros Hold Hlen; induction n as [|n IH]; intros [|c s] Hs; simpl in Hs; try lia.
  - reflexivity.
  - reflexivity.
  - cbn [replace_scan]; destruct (prefixb old (c :: s)).
    + rewrite length_app, replace_scan_skip.
      pose proof (IH (skipn (length old - 1) s)) as Hrest.
      rewrite length_skipn in Hrest.
      destruct old as [|o old']; [contradiction|].
      cbn [length] in *; lia.
    + cbn [length]; pose proof (IH s); lia.
Qed.

Lemma redact_absent (keywords : list str) (response : str) :
  (forall k, In k keywords -> contains k response = false) ->
  redact keywords response = response.
Proof.
  induction keywords as [|k ks IH]; intros Habs; [reflexivity|].
  unfold redact in *; cbn [fold_left].
  assert (Hk : contains k response = false) by (apply Habs; now left).
  assert (Hrep : replace response k (restriction_marker k) = response).
  { destruct k as [|c k]; [destruct response; discriminate|].
    unfold replace; apply replace_scan_absent.
    intros Hocc; apply contains_occurs in Hocc; congruence. }
  destruct (contains (lower k) (lower response)); [rewrite Hrep|];
    apply IH; intros; apply Habs; now right.
Qed.

Lemma redact_length (keywords : list str) (response : str) :
  Forall (fun k => k <> []) keywords ->
  (length response <= length (redact keywords response))%nat.
Proof.
  intros Hne; revert response; induction Hne as [|k ks Hk _ IH]; intros response;
    [apply Nat.le_refl|].
  unfold redact in *; cbn [fold_left].
  destruct (contains (lower k) (lower response)); [|apply IH].
  etransitivity; [|apply IH].
  rewrite replace_nonempty by assumption.
  apply (replace_scan_length k (restriction_marker k) Hk) with (n := length response);
    [|apply Nat.le_refl].
  unfold restriction_marker, upper; rewrite !length_app, length_map; lia.
Qed.

Lemma sensitive_keywords_nonempty : Forall (fun k : str => k <> []) sensitive_keywords.
Proof. repeat constructor; discriminate. Qed.

Lemma Ok_inj {A} (a b : A) : Ok a = Ok b -> a = b.
Proof. now intros [= ->]. Qed.

(** X8.  For a role without [sensitive_info], [filter_response] returns
    the text exactly as it was -- nothing replaced, no disclaimer -- if and
    only if none of the sensitive keywords occurs in the text in its
    lower-case spelling; an occurrence in any other casing changes nothing.
    The result is never shorter than the text. *)
Theorem filter_response_unchanged_iff (response user_role : str) :
  canSeeSensitiveInfo user_role = false ->
  (filter_response response user_role = Ok response <->
   forall k, In k sensitive_keywords -> contains k response = false) /\
  exists out,
    filter_response response user_role = Ok out /\
    (length response <= length out)%nat.
Proof.
  intros Hrole; rewrite filter_response_unprivileged by assumption.
  pose proof (redact_length sensitive_keywords response sensitive_keywords_nonempty) as Hlen.
  split; [split|].
  - intros Heq k Hin; destruct (contains k response) eqn:E; [exfalso|reflexivity].
    apply contains_occurs in E.
    destruct (redact_sensitive_keyword k response Hin E) as [_ Hgone].
    assert (Hne : str_eqb (redact sensitive_keywords response) response = false).
    { apply str_eqb_neq; intros Heq'; apply Hgone; now rewrite Heq'. }
    rewrite Hne in Heq; cbn [negb] in Heq; apply Ok_inj in Heq.
    apply (f_equal (@length ascii)) in Heq; rewrite length_app in Heq.
    assert (0 < length disclaimer)%nat by (unfold disclaimer; cbn [length app]; lia).
    lia.
  - intros Habs; rewrite redact_absent by assumption.
    now rewrite str_eqb_refl.
  - eexists; split; [reflexivity|].
    destruct (negb _); [rewrite length_app|]; lia.
Qed.

Lemma filter_response_unchanged_iff_witness :
  (filter_response (lit "Passwords must be ENCRYPTED.") (lit "public") =
     Ok (lit "Passwords must be ENCRYPTED.") <->
   forall k, In k sensitive_keywords ->
             contains k (lit "Passwords must be ENCRYPTED.") = false) /\
  exists out,
    filter_response (lit "Passwords must be ENCRYPTED.") (lit "public") = Ok out /\
    (length (lit "Passwords must be ENCRYPTED.") <= length out)%nat.
Proof.
  apply (filter_response_unchanged_iff (lit "Passwords must be ENCRYPTED.") (lit "public")).
  reflexivity.
Defined.

End FilterMore.

(** ** More on filter_documents and query *)

Module AccessMore.
Import PyFacts DictFacts DictMore FilterDocumentsFacts FilterMore AIQuerySystem.

(** [filter_documents] as one filter. *)
Lemma filter_documents_eq (documents : list doc) (user_role : str) :
  filter_documents documents user_role =
    Ok (if canSeeAllDocuments user_role then documents
        else filter (fun d => list_mem (effective_role user_role) (allowed_roles d))
                    documents).
Proof.
  unfold filter_documents, canSeeAllDocuments, dict_item.
  rewrite <- effective_role_normalize.
  destruct (effective_role_known user_role) as [perms ->]; simpl.
  destruct (all_documents perms); [reflexivity|].
  now rewrite fold_append_filter.
Qed.

(** The allow-lists of the restriction table name "admin" and "manager",
    and never "public". *)
Lemma restricted_roles (source : str) (roles : list str) :
  dict_get document_restrictions source = Some roles ->
  list_mem (lit "admin") roles = true /\
  list_mem (lit "manager") roles = true /\
  list_mem (lit "public") roles = false /\
  (list_mem (lit "public") roles = true -> list_mem (lit "employee") roles = true).
Proof.
  intros H; apply dict_get_In in H; simpl in H.
  destruct H as [H|[H|[]]]; injection H as _ <-; repeat split; try reflexivity;
    discriminate.
Qed.

(** Only "admin" and "manager" see all documents. *)
Lemma canSeeAllDocuments_roles (role : str) :
  canSeeAllDocuments role = true -> role = lit "admin" \/ role = lit "manager".
Proof.
  unfold canSeeAllDocuments, normalize_role, dict_mem.
  destruct (dict_get role_permissions role) as [perms|] eqn:E.
  - rewrite E; intros Hall; apply dict_get_In in E; simpl in E.
    destruct E as [E|[E|[E|[E|[]]]]]; injection E as <- <-; auto; discriminate.
  - vm_compute; discriminate.
Qed.

Lemma effective_role_cases (role : str) :
  effective_role role = role \/ effective_role role = lit "public".
Proof. unfold effective_role; destruct (dict_mem role_permissions role); auto. Qed.

Lemma allowed_roles_source (d : doc) (source : str) (roles : list str) :
  dict_get d (lit "source") = Some (VStr source) ->
  dict_get document_restrictions source = Some roles ->
  allowed_roles d = roles.
Proof.
  intros Hs Hr; unfold allowed_roles, dict_get_default; now rewrite Hs, Hr.
Qed.

(** What [filter_documents] lets through, for every role string. *)
Lemma filter_documents_allowed (documents out : list doc) (user_role : str)
    (d : doc) (source : str) (roles : list str) :
  filter_documents documents user_role = Ok out -> In d out ->
  dict_get d (lit "source") = Some (VStr source) ->
  dict_get document_restrictions source = Some roles ->
  In d documents /\ In user_role roles.
Proof.
  rewrite filter_documents_eq; intros Hout Hd Hs Hr; apply Ok_inj in Hout.
  destruct (restricted_roles source roles Hr) as (Hadmin & Hmanager & Hpublic & _).
  destruct (canSeeAllDocuments user_role) eqn:Hall.
  - subst out; split; [exact Hd|].
    destruct (canSeeAllDocuments_roles user_role Hall) as [-> | ->];
      now apply list_mem_In.
  - subst out; apply filter_In in Hd as [Hd Hmem]; split; [exact Hd|].
    rewrite (allowed_roles_source d source roles Hs Hr) in Hmem.
    destruct (effective_role_cases user_role) as [E|E]; rewrite E in Hmem.
    + now apply list_mem_In.
    + congruence.
Qed.

(** X9.  Whatever the role string is -- a role of the table or any other
    text -- a chunk whose source has an entry in the restriction table is
    in the result of [filter_documents] only if the role is on the
    allow-list of that source; and every returned chunk is one of the
    input. *)
Theorem filter_documents_restricted_sources (documents out : list doc)
    (user_role : str) :
  filter_documents documents user_role = Ok out ->
  incl out documents /\
  forall d source roles,
    In d out ->
    dict_get d (lit "source") = Some (VStr source) ->
    dict_get document_restrictions source = Some roles ->
    In user_role roles.
Proof.
  intros Hout; split.
  - rewrite filter_documents_eq in Hout; apply Ok_inj in Hout; subst out.
    destruct (canSeeAllDocuments user_role); [apply incl_refl|apply incl_filter].
  - intros d source roles Hd Hs Hr.
    exact (proj2 (filter_documents_allowed _ _ _ _ _ _ Hout Hd Hs Hr)).
Qed.

Lemma filter_documents_restricted_sources_witness :
  incl [chunk "a" "notes.txt" 0]
       [chunk "a" "cybersecurity.txt" 0; chunk "a" "notes.txt" 0;
        chunk "b" "cloud_devops.txt" 0] /\
  forall d source roles,
    In d [chunk "a" "notes.txt" 0] ->
    dict_get d (lit "source") = Some (VStr source) ->
    dict_get document_restrictions source = Some roles ->
    In (lit "intern") roles.
Proof.
  apply (filter_documents_restricted_sources
           [chunk "a" "cybersecurity.txt" 0; chunk "a" "notes.txt" 0;
            chunk "b" "cloud_devops.txt" 0]
           [chunk "a" "notes.txt" 0] (lit "intern")).
  reflexivity.
Defined.

End AccessMore.

Module QueryMore.
Import PyFacts DictFacts DictMore FilterDocumentsFacts FilterMore AccessMore AIQuerySystem.

Lemma filter_idempotent {A} (p : A -> bool) (l : list A) :
  filter p (filter p l) = filter p l.
Proof.
  induction l as [|x l IH]; [reflexivity|].
  simpl; destruct (p x) eqn:E; [simpl; now rewrite E, IH|exact IH].
Qed.

(** Whoever is on an allow-list together with "public" is there together
    with "employee". *)
Lemma public_then_employee (d : doc) :
  list_mem (lit "public") (allowed_roles d) = true ->
  list_mem (lit "employee") (allowed_roles d) = true.
Proof.
  unfold allowed_roles, dict_get_default.
  destruct (dict_get d (lit "source")) as [[source| | |]|]; try reflexivity.
  destruct (dict_get document_restrictions source) as [roles|] eqn:E; [|reflexivity].
  now apply restricted_roles in E.
Qed.

(** X10.  Filtering the result of [filter_documents] again for the same
    role changes nothing.  Privilege is monotone: what "public" gets is
    among what "employee" gets, "manager" and "admin" get the whole input,
    and a role that is not in the permission table gets what "public"
    gets. *)
Theorem filter_documents_idempotent_monotone (documents : list doc) :
  (forall user_role out,
     filter_documents documents user_role = Ok out ->
     filter_documents out user_role = Ok out) /\
  (exists for_public for_employee,
     filter_documents documents (lit "public") = Ok for_public /\
     filter_documents documents (lit "employee") = Ok for_employee /\
     incl for_public for_employee /\
     forall user_role,
       dict_mem role_permissions user_role = false ->
       filter_documents documents user_role = Ok for_public) /\
  filter_documents documents (lit "manager") = Ok documents /\
  filter_documents documents (lit "admin") = Ok documents.
Proof.
  split; [|split; [|split; reflexivity]].
  - intros user_role out Hout.
    rewrite filter_documents_eq in *; apply Ok_inj in Hout; subst out.
    destruct (canSeeAllDocuments user_role); [reflexivity|].
    now rewrite filter_idempotent.
  - do 2 eexists; rewrite !filter_documents_eq.
    change (canSeeAllDocuments (lit "public")) with false.
    change (canSeeAllDocuments (lit "employee")) with false.
    change (effective_role (lit "public")) with (lit "public").
    change (effective_role (lit "employee")) with (lit "employee").
    split; [reflexivity|]; split; [reflexivity|]; split.
    + intros d Hd; apply filter_In in Hd as [Hd Hmem]; apply filter_In.
      split; [exact Hd|now apply public_then_employee].
    + intros user_role Hrole; rewrite filter_documents_eq.
      unfold canSeeAllDocuments, normalize_role, effective_role.
      rewrite Hrole; reflexivity.
Qed.

(** X11.  [query] calls the answer-generation collaborator at most once,
    with the question and the chunks that the search found and
    [filter_documents] let through for the role, and never with no chunk.
    So a chunk whose source has an entry in the restriction table reaches
    the collaborator only when the role is on the allow-list of that
    source. *)
Theorem query_calls_only_visible_chunks (generate_response : llm) (timestamp : str)
    (self : AIQuerySystem) (question : str) (top_k : Z) (user_role : str) :
  snd (query generate_response timestamp self question top_k user_role) = [] \/
  exists found chunks,
    snd (query generate_response timestamp self question top_k user_role)
      = [(question, chunks)] /\
    initialized self = true /\
    similarity_search (vector_store self) question top_k = Ok found /\
    filter_documents found user_role = Ok chunks /\
    chunks <> [] /\
    forall d source roles,
      In d chunks ->
      dict_get d (lit "source") = Some (VStr source) ->
      dict_get document_restrictions source = Some roles ->
      In user_role roles.
Proof.
  unfold query.
  destruct (initialized self); cbn [negb]; [|now left].
  destruct (similarity_search (vector_store self) question top_k) as [found|e] eqn:Hs;
    [|now left].
  destruct (filter_documents found user_role) as [[|c rest]|e] eqn:Hf;
    cbn [truthy negb]; [now left| |now left].
  right; exists found, (c :: rest); split.
  - destruct (generate_response question (c :: rest)) as [r|e]; [|reflexivity].
    destruct (filter_response (llm_text r) user_role); reflexivity.
  - repeat split; try assumption; try reflexivity; [discriminate|].
    intros d source roles Hd Hsrc Hr.
    exact (proj2 (filter_documents_allowed _ _ _ _ _ _ Hf Hd Hsrc Hr)).
Qed.

End QueryMore.

(** ** More on chunk_text *)

Module ChunkMore.
Import DocumentProcessor PyFacts ChunkFacts ReplaceFacts.

Lemma occurs_in_trans (a b c : str) : occurs_in a b -> occurs_in b c -> occurs_in a c.
Proof.
  intros (x & y & ->) (u & v & ->).
  exists (u ++ x), (y ++ v); now rewrite <- !app_assoc.
Qed.

Lemma occurs_in_length (a b : str) : occurs_in a b -> (length a <= length b)%nat.
Proof. intros (x & y & ->); rewrite !length_app; lia. Qed.

Lemma lstrip_suffix (s : str) : exists a, s = a ++ lstrip s.
Proof.
  induction s as [|c s [a IH]]; [now exists []|].
  simpl; destruct (isspace c); [|now exists []].
  exists (c :: a); simpl; now f_equal.
Qed.

Lemma lstrip_head (s : str) (c : ascii) (t : str) :
  lstrip s = c :: t -> isspace c = false.
Proof.
  induction s as [|x s IH]; simpl; [discriminate|].
  destruct (isspace x) eqn:E; [exact IH|].
  now intros [= <- _].
Qed.

Lemma lstrip_fixed (s : str) :
  match s with c :: _ => isspace c = false | [] => True end -> lstrip s = s.
Proof. destruct s as [|c s]; [reflexivity|]; simpl; now intros ->. Qed.

Lemma lstrip_idempotent (s : str) : lstrip (lstrip s) = lstrip s.
Proof.
  apply lstrip_fixed; destruct (lstrip s) as [|c t] eqn:E; [exact I|].
  eapply lstrip_head; eauto.
Qed.

(** [strip] takes whitespace off both ends and nothing else. *)
Lemma strip_spec (s : str) :
  exists a b, s = a ++ strip s ++ b /\ lstrip s = strip s ++ b.
Proof.
  destruct (lstrip_suffix s) as [a Ha].
  destruct (lstrip_suffix (rev (lstrip s))) as [b Hb].
  exists a, (rev b).
  assert (H : lstrip s = strip s ++ rev b).
  { unfold strip; rewrite <- rev_app_distr, <- Hb; now rewrite rev_involutive. }
  split; [now rewrite <- H|exact H].
Qed.

Lemma strip_occurs (s : str) : occurs_in (strip s) s.
Proof. destruct (strip_spec s) as (a & b & H & _); now exists a, b. Qed.

Lemma strip_trimmed (s : str) : trimmed (strip s).
Proof.
  unfold trimmed; split.
  - apply lstrip_fixed.
    destruct (strip_spec s) as (a & b & _ & H).
    destruct (strip s) as [|c t]; [exact I|].
    apply (lstrip_head s c (t ++ b)); exact H.
  - unfold strip; rewrite rev_involutive; apply lstrip_idempotent.
Qed.

Lemma slice_occurs {A} (s : list A) (a b : Z) :
  exists x y, s = x ++ slice s a b ++ y.
Proof.
  unfold slice; cbv zeta.
  set (m := Z.to_nat (adjust (len s) a)); set (n := Z.to_nat _).
  exists (firstn m s), (skipn n (skipn m s)).
  now rewrite (firstn_skipn n), (firstn_skipn m).
Qed.

Lemma slice_window {A} (s : list A) (a b : Z) :
  0 <= a <= b -> len (slice s a b) <= b - a.
Proof.
  intros Hab; unfold slice, len, adjust; cbv zeta.
  rewrite length_firstn.
  destruct (Z.ltb_spec a 0), (Z.ltb_spec b 0); lia.
Qed.

Lemma last_index_bound (c : ascii) (s : str) :
  forall i found,
    last_index c s i found = found \/
    i <= last_index c s i found < i + len s.
Proof.
  induction s as [|x s IH]; intros i found; [now left|].
  cbn [last_index]; unfold len in *; cbn [length]; rewrite Nat2Z.inj_succ.
  destruct (IH (i + 1) (if Ascii.eqb x c then i else found)) as [->|H].
  - destruct (Ascii.eqb x c); [right; lia|now left].
  - right; lia.
Qed.

(** What [rfind] finds lies before the end of its window. *)
Lemma rfind_lt (c : ascii) (text : str) (a b : Z) :
  0 <= a <= b -> rfind c text a b < b.
Proof.
  intros Hab; unfold rfind; cbv zeta.
  destruct (last_index_bound c (slice text a b) (adjust (len text) a) (-1)) as [->|H];
    [lia|].
  assert (Hlen : len (slice text a b) <= adjust (len text) b - adjust (len text) a
                 \/ len (slice text a b) = 0).
  { unfold slice, len; cbv zeta; rewrite length_firstn; lia. }
  revert H Hlen; unfold adjust.
  destruct (Z.ltb_spec a 0), (Z.ltb_spec b 0); lia.
Qed.

(** One pass through the loop body from a position inside the text: the
    position moves forward, and the chunk it may append is a non-empty,
    trimmed piece of the text of at most [chunk_size] code points. *)
Lemma chunk_body_spec (text : str) (chunk_size overlap start : Z) (chunks : list str) :
  1 <= chunk_size -> 0 <= start ->
  start < fst (chunk_body text chunk_size overlap start chunks) /\
  (snd (chunk_body text chunk_size overlap start chunks) = chunks \/
   exists c,
     snd (chunk_body text chunk_size overlap start chunks) = chunks ++ [c] /\
     c <> [] /\ trimmed c /\ occurs_in c text /\ len c <= chunk_size).
Proof.
  intros Hcs Hstart; split; [now apply chunk_body_progress|].
  unfold chunk_body; cbv zeta; cbn [snd].
  set (end0 := start + chunk_size).
  set (best := Z.max _ _).
  set (end1 := if end0 <? len text then _ else _).
  assert (Hend : start < end1 <= end0).
  { unfold end1; destruct (end0 <? len text); [|unfold end0; lia].
    destruct (best >? start) eqn:E; [|unfold end0; lia].
    apply Z.gtb_lt in E; split; [lia|].
    assert (Hw : 0 <= start <= end0) by (unfold end0; lia).
    pose proof (rfind_lt "."%char text start end0 Hw).
    pose proof (rfind_lt "?"%char text start end0 Hw).
    pose proof (rfind_lt "!"%char text start end0 Hw).
    unfold best; lia. }
  destruct (strip (slice text start end1)) as [|c0 t] eqn:E; cbn [truthy]; [now left|].
  right; exists (c0 :: t); split; [reflexivity|]; rewrite <- E.
  split; [rewrite E; discriminate|]; split; [apply strip_trimmed|]; split.
  - eapply occurs_in_trans; [apply strip_occurs|].
    destruct (slice_occurs text start end1) as (x & y & H); now exists x, y.
  - pose proof (occurs_in_length _ _ (strip_occurs (slice text start end1))).
    pose proof (slice_window text start end1 ltac:(lia)).
    unfold len in *; unfold end0 in Hend; lia.
Qed.

Lemma chunk_loop_chunks (text : str) (chunk_size overlap : Z) (P : str -> Prop) :
  1 <= chunk_size ->
  (forall c, c <> [] -> trimmed c -> occurs_in c text -> len c <= chunk_size -> P c) ->
  forall fuel start chunks r,
    0 <= start -> Forall P chunks ->
    chunk_loop fuel text chunk_size overlap start chunks = Some r ->
    Forall P r.
Proof.
  intros Hcs HP; induction fuel as [|fuel IH]; intros start chunks r Hstart Hall;
    cbn [chunk_loop].
  - destruct (start <? len text); [discriminate|]; now intros [= <-].
  - destruct (start <? len text); [|now intros [= <-]].
    destruct (chunk_body_spec text chunk_size overlap start chunks Hcs Hstart)
      as [Hprog Hsnd].
    destruct (chunk_body text chunk_size overlap start chunks) as [start' chunks'].
    cbn [fst snd] in *; apply IH; [lia|].
    destruct Hsnd as [->|(c & -> & Hne & Htrim & Hocc & Hlen)]; [exact Hall|].
    apply Forall_app; split; [exact Hall|]; constructor; [auto|constructor].
Qed.

Lemma chunk_text_pieces (text : str) (chunk_size overlap : Z) :
  1 <= chunk_size ->
  exists chunks,
    chunk_text text chunk_size overlap = Some chunks /\
    Forall (fun c => occurs_in c text /\ len c <= chunk_size) chunks /\
    (chunk_size < len text -> Forall (fun c => c <> [] /\ trimmed c) chunks).
Proof.
  intros Hcs; unfold chunk_text, chunk_text_fuel.
  destruct (Z.leb_spec (len text) chunk_size) as [Hshort|Hlong].
  - exists [text]; split; [reflexivity|]; split; [|lia].
    constructor; [|constructor]; split; [|exact Hshort].
    exists [], []; now rewrite app_nil_r.
  - destruct (chunk_loop_terminates text chunk_size overlap Hcs (length text) 0 [])
      as [r Hr]; [unfold len; lia|].
    exists r; split; [exact Hr|]; split; [|intros _].
    + eapply (chunk_loop_chunks text chunk_size overlap); [exact Hcs| | | |exact Hr];
        try (intros; split; assumption); [lia|constructor].
    + eapply (chunk_loop_chunks text chunk_size overlap); [exact Hcs| | | |exact Hr];
        try (intros; split; assumption); [lia|constructor].
Qed.

(** X12.  With a window of at least one code point, [chunk_text] returns
    for every text and every overlap, and every chunk it returns is a piece
    of the text of at most [chunk_size] code points; when the text is longer
    than the window, every chunk is moreover non-empty and has no white
    space at either end. *)
Theorem chunk_text_chunks (text : str) (chunk_size overlap : Z) :
  1 <= chunk_size ->
  exists chunks,
    chunk_text text chunk_size overlap = Some chunks /\
    Forall (fun c => occurs_in c text /\ len c <= chunk_size) chunks /\
    (chunk_size < len text -> Forall (fun c => c <> [] /\ trimmed c) chunks).
Proof. exact (chunk_text_pieces text chunk_size overlap). Qed.

Lemma chunk_text_chunks_witness :
  exists chunks,
    chunk_text (lit "One. Two? Three!") 6 2 = Some chunks /\
    Forall (fun c => occurs_in c (lit "One. Two? Three!") /\ len c <= 6) chunks /\
    (6 < len (lit "One. Two? Three!") -> Forall (fun c => c <> [] /\ trimmed c) chunks).
Proof. apply (chunk_text_chunks (lit "One. Two? Three!") 6 2); lia. Defined.

End ChunkMore.

(** ** load_documents, process_documents and initialize *)

Module ProcessMore.
Import DocumentProcessor PyFacts DictFacts DictMore ChunkFacts ReplaceFacts ModelFacts
       StoreFacts FilterMore ChunkMore AIQuerySystem.

Lemma fold_append_filter_map {A B} (p : A -> bool) (f : A -> B) (l : list A) (acc : list B) :
  fold_left (fun acc x => if p x then acc ++ [f x] else acc) l acc
    = acc ++ map f (filter p l).
Proof.
  revert acc; induction l as [|x l IH]; intros acc; simpl.
  - now rewrite app_nil_r.
  - rewrite IH; destruct (p x); [now rewrite <- app_assoc|reflexivity].
Qed.

Lemma fold_append_map {A B} (f : A -> B) (l : list A) (acc : list B) :
  fold_left (fun acc x => acc ++ [f x]) l acc = acc ++ map f l.
Proof.
  revert acc; induction l as [|x l IH]; intros acc; simpl.
  - now rewrite app_nil_r.
  - rewrite IH; now rewrite <- app_assoc.
Qed.

Lemma fold_append_flat_map {A B C} (h : A -> list C) (g : A -> C -> B)
    (l : list A) (acc : list B) :
  fold_left (fun acc x => fold_left (fun acc y => acc ++ [g x y]) (h x) acc) l acc
    = acc ++ flat_map (fun x => map (g x) (h x)) l.
Proof.
  revert acc; induction l as [|x l IH]; intros acc; simpl.
  - now rewrite app_nil_r.
  - rewrite IH, fold_append_map; now rewrite <- app_assoc.
Qed.

(** [load_documents] on a directory that exists: one record for each name
    that ends in ".txt", in the order of the listing. *)
Lemma load_documents_listing (documents_dir : str) (entries : list (str * option str)) :
  load_documents documents_dir (Some entries) =
    Ok (map (fun entry => {| filename := fst entry;
                             content := _load_text_file (snd entry);
                             file_path := path_join documents_dir (fst entry) |})
            (filter (fun entry => endswith (fst entry) (lit ".txt")) entries)).
Proof.
  unfold load_documents; f_equal.
  exact (fold_append_filter_map
           (fun entry => endswith (fst entry) (lit ".txt"))
           (fun entry => {| filename := fst entry;
                            content := _load_text_file (snd entry);
                            file_path := path_join documents_dir (fst entry) |})
           entries []).
Qed.

Lemma process_documents_listing (documents_dir : str) (entries : list (str * option str)) :
  process_documents documents_dir (Some entries) =
    Ok (flat_map
          (fun d => map (fun ic => processed_chunk d (fst ic) (snd ic))
                        (enumerate O (default_chunks (content d))))
          (map (fun entry => {| filename := fst entry;
                                content := _load_text_file (snd entry);
                                file_path := path_join documents_dir (fst entry) |})
               (filter (fun entry => endswith (fst entry) (lit ".txt")) entries))).
Proof.
  unfold process_documents; rewrite load_documents_listing; cbn [bind]; f_equal.
  exact (fold_append_flat_map
           (fun d => enumerate O (default_chunks (content d)))
           (fun d ic => processed_chunk d (fst ic) (snd ic)) _ []).
Qed.

(** The chunks of the default window are pieces of the text of at most 500
    code points. *)
Lemma default_chunks_pieces (text : str) :
  Forall (fun c => occurs_in c text /\ len c <= 500) (default_chunks text).
Proof.
  unfold default_chunks.
  destruct (chunk_text_pieces text 500 50 ltac:(lia)) as (chunks & -> & H & _).
  exact H.
Qed.

(** Chunks that all hold a string under 'text' give their texts. *)
Lemma doc_texts_of_strings (chunks : list doc) :
  Forall (fun c => exists text, dict_get c (lit "text") = Some (VStr text)) chunks ->
  exists texts, doc_texts chunks = Ok texts.
Proof.
  unfold doc_texts; induction 1 as [|c chunks [text Hc] _ (texts & IH)].
  - now exists [].
  - apply bind_Ok in IH as (values & Hvalues & Htexts).
    exists (text :: texts); cbn [mapM]; unfold dict_item at 1.
    rewrite Hc; cbn [bind]; rewrite Hvalues; cbn [bind mapM as_text].
    now rewrite Htexts.
Qed.

(** What [process_documents] appends for the files of a directory. *)
Lemma process_documents_entries (documents_dir : str) (entries : list (str * option str)) :
  exists chunks,
    process_documents documents_dir (Some entries) = Ok chunks /\
    Forall (fun c => exists name readable text i,
              In (name, readable) entries /\
              endswith name (lit ".txt") = true /\
              c = [ (lit "text", VStr text);
                    (lit "source", VStr name);
                    (lit "chunk_id", VInt i);
                    (lit "file_path", VStr (path_join documents_dir name)) ] /\
              0 <= i /\
              occurs_in text (_load_text_file readable) /\
              len text <= 500) chunks.
Proof.
  eexists; split; [apply process_documents_listing|].
  apply Forall_forall; intros c Hc.
  apply in_flat_map in Hc as (d & Hd & Hc).
  apply in_map_iff in Hd as ([name readable] & <- & Hentry).
  apply filter_In in Hentry as [Hentry Htxt].
  apply in_map_iff in Hc as ([i text] & <- & Hic).
  apply enumerate_In in Hic as [_ Hic]; apply nth_error_In in Hic.
  cbn [fst snd content] in *.
  pose proof (default_chunks_pieces (_load_text_file readable)) as Hall.
  rewrite Forall_forall in Hall; destruct (Hall text Hic) as [Hocc Hlen].
  exists name, readable, text, (Z.of_nat i).
  repeat split; auto; lia.
Qed.

Lemma process_documents_texts (documents_dir : str) (entries : list (str * option str)) :
  exists chunks texts,
    process_documents documents_dir (Some entries) = Ok chunks /\
    doc_texts chunks = Ok texts.
Proof.
  destruct (process_documents_entries documents_dir entries) as (chunks & Hp & Hall).
  destruct (doc_texts_of_strings chunks) as [texts Ht].
  { eapply Forall_impl; [|exact Hall].
    intros c (name & readable & text & i & _ & _ & -> & _); now exists text. }
  now exists chunks, texts.
Qed.

(** X13.  [process_documents] raises, with [FileNotFoundError], exactly
    when the documents directory is missing.  Otherwise it returns chunks
    that each come from a listed file whose name ends in ".txt": the
    dictionary has the four keys 'text', 'source', 'chunk_id' and
    'file_path', the source is the file name, the path is the directory
    joined with it, and the text is a piece of at most 500 code points of
    what was read from the file (of the empty text when reading failed).
    Every chunk has a string text, so the texts for the store exist. *)
Theorem process_documents_chunks (documents_dir : str) (dir : directory) :
  match dir with
  | None =>
      process_documents documents_dir dir =
        Raise (FileNotFoundError
                 (lit "Documents directory '" ++ documents_dir ++ lit "' not found"))
  | Some entries =>
      exists chunks texts,
        process_documents documents_dir dir = Ok chunks /\
        doc_texts chunks = Ok texts /\
        Forall (fun c => exists name readable text i,
                  In (name, readable) entries /\
                  endswith name (lit ".txt") = true /\
                  c = [ (lit "text", VStr text);
                        (lit "source", VStr name);
                        (lit "chunk_id", VInt i);
                        (lit "file_path", VStr (path_join documents_dir name)) ] /\
                  0 <= i /\
                  occurs_in text (_load_text_file readable) /\
                  len text <= 500) chunks
  end.
Proof.
  destruct dir as [entries|]; [|reflexivity].
  destruct (process_documents_entries documents_dir entries) as (chunks & Hp & Hall).
  destruct (process_documents_texts documents_dir entries) as (chunks' & texts & Hp' & Ht).
  rewrite Hp in Hp'; apply Ok_inj in Hp'; subst chunks'.
  now exists chunks, texts.
Qed.

Section WithRuntimeAndPickle.
Context `{Runtime} `{Pickle store_data}.

(** [load] assigns every attribute of the store, so the store it is called
    on does not matter, and what was saved last under the path comes back. *)
Lemma load_saved (self other : VectorStore) (filepath : str) (fs : files) :
  load other filepath (save self filepath fs) = Ok self.
Proof.
  unfold load, save; rewrite dict_get_set_same, pickle_load_dump; cbn [bind].
  destruct self as [vs md [voc idf f]]; reflexivity.
Qed.



(** X15.  After an [initialize] that returned, a later [initialize]
    without [force_rebuild] -- on any system object, whatever has become of
    the documents directory -- loads the snapshot and arrives at the same
    system, leaving the files as they are. *)
Theorem initialize_restart (documents_dir vector_store_path : str) (dir : directory)
    (self : AIQuerySystem) (force_rebuild : bool) (fs fs' : files)
    (system : AIQuerySystem) :
  initialize documents_dir vector_store_path dir self force_rebuild fs
    = (Ok tt, system, fs') ->
  forall documents_dir' dir' other,
    initialize documents_dir' vector_store_path dir' other false fs'
      = (Ok tt, system, fs').
Proof.
  intros Hinit documents_dir' dir' other.
  assert (Hloaded : load (vector_store other) vector_store_path fs'
                    = Ok (vector_store system)
                    /\ dict_mem fs' vector_store_path = true
                    /\ initialized system = true).
  { revert Hinit; unfold initialize; cbv zeta.
    assert (Hrebuild :
      match process_documents documents_dir dir with
      | Raise e => (Raise e, self, fs)
      | Ok chunks =>
          match add_documents (vector_store self) chunks with
          | Raise e => (Raise e, self, fs)
          | Ok store =>
              (Ok tt, {| vector_store := store; initialized := true |},
               save store vector_store_path fs)
          end
      end = (Ok tt, system, fs') ->
      load (vector_store other) vector_store_path fs' = Ok (vector_store system)
      /\ dict_mem fs' vector_store_path = true /\ initialized system = true).
    { destruct (process_documents documents_dir dir) as [chunks|e]; [|discriminate].
      destruct (add_documents (vector_store self) chunks) as [store|e]; [|discriminate].
      intros [= <- <-]; cbn [vector_store initialized]; split; [apply load_saved|].
      split; [|reflexivity].
      unfold dict_mem, save; now rewrite dict_get_set_same. }
    destruct (dict_mem fs vector_store_path && negb force_rebuild) eqn:Hcond;
      [|exact Hrebuild].
    destruct (load (vector_store self) vector_store_path fs) as [store|e] eqn:Hload;
      [|exact Hrebuild].
    intros [= <- <-]; cbn [vector_store initialized].
    apply andb_true_iff in Hcond as [Hmem _]; auto. }
  destruct Hloaded as (Hload & Hmem & Hinitd).
  unfold initialize; cbv zeta; rewrite Hmem, Hload; cbn [negb andb].
  destruct system as [store b]; cbn in Hinitd; subst b; reflexivity.
Qed.


End WithRuntimeAndPickle.

Lemma initialize_restart_witness :
  @initialize (last_occurrence_runtime log_table) (identity_pickle store_data)
    (lit "elsewhere") (lit "vector_store.pkl") None
    {| vector_store := new_store; initialized := false |} false
    (@save (identity_pickle store_data)
       {| vectors := vectors three_store;
          metadata := [chunk "a" "a.txt" 0; chunk "a" "b.txt" 0; chunk "b" "c.txt" 0];
          embeddings_model := embeddings_model three_store |}
       (lit "vector_store.pkl") [])
  = (Ok tt,
     {| vector_store :=
          {| vectors := vectors three_store;
             metadata := [chunk "a" "a.txt" 0; chunk "a" "b.txt" 0; chunk "b" "c.txt" 0];
             embeddings_model := embeddings_model three_store |};
        initialized := true |},
     @save (identity_pickle store_data)
       {| vectors := vectors three_store;
          metadata := [chunk "a" "a.txt" 0; chunk "a" "b.txt" 0; chunk "b" "c.txt" 0];
          embeddings_model := embeddings_model three_store |}
       (lit "vector_store.pkl") []).
Proof.
  apply (@initialize_restart (last_occurrence_runtime log_table) (identity_pickle store_data)
           (lit "documents") (lit "vector_store.pkl")
           (Some [(lit "a.txt", Some (lit "a")); (lit "notes.md", Some (lit "c"));
                  (lit "b.txt", Some (lit "a")); (lit "c.txt", Some (lit "b"))])
           {| vector_store := new_store; initialized := false |} true []).
  vm_compute; reflexivity.
Defined.


End ProcessMore.
